(** * csv-email-filter: extraction and classification engine

    A shallow embedding of [main.py]: the e-mail extractor, the suspicion
    classifier, the partitioner, and the CSV and VCF ingesters with their
    record store, followed by the properties of the design document.

    Python strings are sequences of Unicode code points: a character is a
    code point ([N]) and a string is a list of them.  What Python takes
    from its Unicode database ([str.lower], [str.isdigit], white space,
    the word characters of [\b], case-insensitive matching) and from the
    [csv] module (dialect sniffing, the reader) is not code of [main.py]:
    these are interfaces ([Unicode], [CsvModule]) the functions are
    written against, with an ASCII instance to run them on ASCII text. *)

From Stdlib Require Import NArith Lia String Ascii.
From stdpp Require Import base option list gmap sorting.

Open Scope N_scope.

Abbreviation char := N (only parsing).
Abbreviation str := (list N) (only parsing).

(** The code point of an ASCII character and the string of an ASCII literal. *)
Definition ch (a : ascii) : char := N_of_ascii a.
Definition py (s : string) : str := map ch (list_ascii_of_string s).

(** ** The Unicode database of the Python runtime *)

Class Unicode := {
  str_lower : str → str;            (* s.lower() *)
  chr_isdigit : char → bool;        (* c.isdigit() *)
  chr_isspace : char → bool;        (* the white space of strip() and split() *)
  chr_isword : char → bool;         (* \w of a str pattern *)
  chr_caseless : char → char → bool (* re.IGNORECASE: pattern literal vs text *)
}.

Definition between (lo hi c : char) : bool := (lo <=? c) && (c <=? hi).

Module Ascii7.
(** The database restricted to ASCII: it agrees with Python on every
    string of code points below 128. *)
Definition lower_chr (c : char) : char :=
  if between (ch "A") (ch "Z") c then c + 32 else c.
Definition isdigit (c : char) : bool := between (ch "0") (ch "9") c.
Definition isspace (c : char) : bool :=
  between 9 13 c || between 28 32 c.
Definition isword (c : char) : bool :=
  between (ch "a") (ch "z") c || between (ch "A") (ch "Z") c
  || between (ch "0") (ch "9") c || (c =? ch "_").
Definition caseless (p c : char) : bool := lower_chr p =? lower_chr c.
End Ascii7.

Definition ascii_unicode : Unicode :=
  {| str_lower := map Ascii7.lower_chr;
     chr_isdigit := Ascii7.isdigit;
     chr_isspace := Ascii7.isspace;
     chr_isword := Ascii7.isword;
     chr_caseless := Ascii7.caseless |}.

(** ** String methods used by the program *)

(** [sep in s] for a one-character [sep]. *)
Definition has_chr (c : char) (s : str) : bool := existsb (N.eqb c) s.

(** [s.count(c)] for a one-character [c]. *)
Definition count_chr (c : char) (s : str) : nat := length (filter (λ x, x = c) s).

(** [s.split(sep, 1)] when [sep] occurs in [s]: the text before the first
    [sep] and the text after it. *)
Fixpoint split_once (sep : char) (s : str) : option (str * str) :=
  match s with
  | [] => None
  | c :: s' =>
      if c =? sep then Some ([], s')
      else match split_once sep s' with
           | Some (a, b) => Some (c :: a, b)
           | None => None
           end
  end.

(** [s.split(sep)]: always at least one piece. *)
Fixpoint split_chr (sep : char) (s : str) : list str :=
  match s with
  | [] => [[]]
  | c :: s' =>
      if c =? sep then [] :: split_chr sep s'
      else match split_chr sep s' with
           | p :: ps => (c :: p) :: ps
           | [] => [[c]]
           end
  end.

(** [sep.join(pieces)]. *)
Fixpoint join (sep : str) (pieces : list str) : str :=
  match pieces with
  | [] => []
  | [p] => p
  | p :: ps => p ++ sep ++ join sep ps
  end.

(** Dropping the leading, and the trailing, characters that satisfy [p]. *)
Fixpoint lstrip_by (p : char → bool) (s : str) : str :=
  match s with
  | c :: s' => if p c then lstrip_by p s' else s
  | [] => []
  end.

Definition rstrip_by (p : char → bool) (s : str) : str :=
  rev (lstrip_by p (rev s)).

(** [s.strip()] and [s.rstrip(chars)]. *)
Definition strip `{Unicode} (s : str) : str :=
  rstrip_by chr_isspace (lstrip_by chr_isspace s).

Definition rstrip_chars (chars : str) (s : str) : str :=
  rstrip_by (λ c, has_chr c chars) s.

(** [s.split(None, 1)]: leading white space is skipped, the first token
    runs up to the next white space, and what follows the white space
    after it is kept whole (when there is any). *)
Fixpoint take_until (p : char → bool) (s : str) : str :=
  match s with
  | c :: s' => if p c then [] else c :: take_until p s'
  | [] => []
  end.

Fixpoint drop_until (p : char → bool) (s : str) : str :=
  match s with
  | c :: s' => if p c then s else drop_until p s'
  | [] => []
  end.

Definition split_ws1 `{Unicode} (s : str) : list str :=
  let s1 := lstrip_by chr_isspace s in
  match s1 with
  | [] => []
  | _ =>
      let tok := take_until chr_isspace s1 in
      match lstrip_by chr_isspace (drop_until chr_isspace s1) with
      | [] => [tok]
      | tail => [tok; tail]
      end
  end.

(** [needle in hay] for strings. *)
Fixpoint starts_with (p s : str) : bool :=
  match p, s with
  | [], _ => true
  | a :: p', b :: s' => (a =? b) && starts_with p' s'
  | _ :: _, [] => false
  end.

Fixpoint contains (needle hay : str) : bool :=
  starts_with needle hay
  || match hay with
     | [] => false
     | _ :: hay' => contains needle hay'
     end.

(** The order of [sorted] on strings: code point by code point. *)
Fixpoint str_leb (a b : str) : bool :=
  match a, b with
  | [], _ => true
  | _ :: _, [] => false
  | x :: a', y :: b' => (x <? y) || ((x =? y) && str_leb a' b')
  end.

(** ** Regular expressions, as the [re] module matches them

    The patterns of the program repeat single character classes only, so
    a backtracking matcher is a function from a position to the list of
    positions a pattern can end at, in the order the engine tries them:
    its head is the match [re] reports. *)

Inductive regex : Type :=
| Eps
| Cls (p : char → bool)                      (* one character of a class *)
| Rep (greedy : bool) (lo : nat) (p : char → bool) (* class{lo,} or class{lo,}? *)
| Opt (r : regex)                            (* r? *)
| Seq (r1 r2 : regex)
| Alt (r1 r2 : regex)
| Bol (multiline : bool)                     (* ^ *)
| Eol (multiline : bool)                     (* $ *)
| WordB.                                     (* \b *)

(** A position in the subject: the character before it and the text from it. *)
Record cursor := Cursor { before : option char; rest : str }.

Definition LF : char := 10.
Definition CR : char := 13.

Fixpoint run (p : char → bool) (s : str) : nat :=
  match s with
  | c :: s' => if p c then S (run p s') else O
  | [] => O
  end.

Fixpoint advance (k : nat) (cur : cursor) : cursor :=
  match k, rest cur with
  | S k', c :: s' => advance k' (Cursor (Some c) s')
  | _, _ => cur
  end.

(** The repetition counts a quantifier tries, longest first when greedy. *)
Definition counts (greedy : bool) (lo n : nat) : list nat :=
  let up := seq lo (S n - lo) in
  if greedy then rev up else up.

Definition at_bol (multiline : bool) (cur : cursor) : bool :=
  match before cur with
  | None => true
  | Some c => multiline && (c =? LF)
  end.

Definition at_eol (multiline : bool) (cur : cursor) : bool :=
  match rest cur with
  | [] => true
  | c :: s' => (c =? LF) && (multiline || match s' with [] => true | _ => false end)
  end.

Definition at_wordb `{Unicode} (cur : cursor) : bool :=
  xorb (from_option chr_isword false (before cur))
       (from_option chr_isword false (head (rest cur))).

Fixpoint step `{Unicode} (r : regex) (cur : cursor) : list cursor :=
  match r with
  | Eps => [cur]
  | Cls p =>
      match rest cur with
      | c :: s' => if p c then [Cursor (Some c) s'] else []
      | [] => []
      end
  | Rep greedy lo p =>
      map (λ k, advance k cur) (counts greedy lo (run p (rest cur)))
  | Opt r1 => step r1 cur ++ [cur]
  | Seq r1 r2 => flat_map (step r2) (step r1 cur)
  | Alt r1 r2 => step r1 cur ++ step r2 cur
  | Bol m => if at_bol m cur then [cur] else []
  | Eol m => if at_eol m cur then [cur] else []
  | WordB => if at_wordb cur then [cur] else []
  end.

(** A literal, and a literal under [re.IGNORECASE]. *)
Definition lit (s : str) : regex := foldr (λ c r, Seq (Cls (N.eqb c)) r) Eps s.
Definition liti `{Unicode} (s : str) : regex :=
  foldr (λ c r, Seq (Cls (chr_caseless c)) r) Eps s.

Fixpoint seqs (rs : list regex) : regex :=
  match rs with
  | [] => Eps
  | [r] => r
  | r :: rs' => Seq r (seqs rs')
  end.

(** [re.match(r, s)] succeeds. *)
Definition re_match `{Unicode} (r : regex) (s : str) : bool :=
  match step r (Cursor None s) with
  | [] => false
  | _ :: _ => true
  end.

(** [re.search(r, s)] succeeds: the first position a match starts at. *)
Fixpoint search_from `{Unicode} (r : regex) (prev : option char) (s : str) : bool :=
  match step r (Cursor prev s) with
  | _ :: _ => true
  | [] =>
      match s with
      | c :: s' => search_from r (Some c) s'
      | [] => false
      end
  end.

Definition re_search `{Unicode} (r : regex) (s : str) : bool :=
  search_from r None s.

(** Character classes of the patterns. *)
Definition lower_az (c : char) : bool := between (ch "a") (ch "z") c.
Definition upper_AZ (c : char) : bool := between (ch "A") (ch "Z") c.
Definition digit_09 (c : char) : bool := between (ch "0") (ch "9") c.
Definition lower_alnum (c : char) : bool := lower_az c || digit_09 c.  (* [a-z0-9] *)
Definition upper_alnum (c : char) : bool := upper_AZ c || digit_09 c.  (* [A-Z0-9] *)
Definition dot (c : char) : bool := negb (c =? LF).                    (* . *)
Definition dotall (c : char) : bool := true.                         (* . with re.DOTALL *)

(** ** The suspicion classifier: [is_suspicious_email] *)

(** [(.)\1{8,}] found by [re.search]: a character other than a line feed
    followed by eight or more copies of itself. *)
Fixpoint has_repeat9 (s : str) : bool :=
  match s with
  | [] => false
  | c :: s' => (dot c && (8 <=? run (N.eqb c) s')%nat) || has_repeat9 s'
  end.

(** [email.split('@', 1) if '@' in email else ('', '')]. *)
Definition local_and_domain (email : str) : str * str :=
  default ([], []) (split_once (ch "@") email).

(** [sum(1 for c in local_part if c in 'aeiou')]. *)
Definition vowel_count (s : str) : nat :=
  length (filter (λ c, has_chr c (py "aeiou") = true) s).

(** [vowel_count < len(local_part) * 0.15].  The product is a double;
    [0.15] is the double just below 3/20, and for every length below 2^50
    the comparison with the integer count has the outcome of the exact
    one: [20 * vowel_count < 3 * len]. *)
Definition few_vowels (s : str) : bool :=
  (20 * vowel_count s <? 3 * length s)%nat.

(** [sum(1 for c in local_part if c.isdigit()) / len(local_part) > 0.7]:
    again the outcome of the exact comparison, [10 * digits > 7 * len]. *)
Definition mostly_digits `{Unicode} (s : str) : bool :=
  (7 * length s <? 10 * length (filter (λ c, chr_isdigit c = true) s))%nat.

Definition suspicious_keywords : list str :=
  [py "unsub"; py "unsubscribe"; py "remove"; py "optout";
   py "noreply"; py "no-reply"; py "donotreply"].

Section Rules.
Context `{Unicode}.
Variables (email local_part domain : str).

(** Pattern 1: [^[a-z0-9]{35,}$] on a local part of more than 40. *)
Definition rule1 : bool :=
  (40 <? length local_part)%nat
  && re_match (seqs [Bol false; Rep true 35 lower_alnum; Eol false]) local_part
  && few_vowels local_part.

(** Pattern 2: [\.{3,}|_{3,}|-{3,}] found in the local part. *)
Definition rule2 : bool :=
  re_search (Alt (Rep true 3 (N.eqb (ch ".")))
            (Alt (Rep true 3 (N.eqb (ch "_")))
                 (Rep true 3 (N.eqb (ch "-"))))) local_part.

(** Pattern 3: more than 70% digits in a local part of more than 15. *)
Definition rule3 : bool :=
  (15 <? length local_part)%nat && mostly_digits local_part.

(** Pattern 4: [^[a-z0-9]{25,}\.(com|net|org)$] on the domain. *)
Definition rule4 : bool :=
  re_match (seqs [Bol false; Rep true 25 lower_alnum; lit (py ".");
                  Alt (lit (py "com")) (Alt (lit (py "net")) (lit (py "org")));
                  Eol false]) domain.

(** Pattern 5: a keyword in the lower-cased e-mail, and a long random
    local part: [^[a-z0-9]{25,}$], more than 30, few vowels. *)
Definition rule5 : bool :=
  existsb (λ keyword, contains keyword (str_lower email)) suspicious_keywords
  && ((30 <? length local_part)%nat
      && re_match (seqs [Bol false; Rep true 25 lower_alnum; Eol false]) local_part)
  && few_vowels local_part.

(** Pattern 6: [(.)\1{8,}] found in the lower-cased e-mail. *)
Definition rule6 : bool := has_repeat9 (str_lower email).

(** Pattern 7: [^[A-Z0-9]{25,}$] on the whole e-mail, a local part of
    more than 30 with a capital letter and a digit. *)
Definition rule7 : bool :=
  ((30 <? length local_part)%nat
   && re_match (seqs [Bol false; Rep true 25 upper_alnum; Eol false]) email)
  && (re_search (Cls upper_AZ) local_part && re_search (Cls digit_09) local_part).

(** Pattern 8: [^[A-Z0-9]+\.[0-9]+\.[0-9]+\.[0-9]+@] on the e-mail, a
    local part of more than 35. *)
Definition rule8 : bool :=
  (35 <? length local_part)%nat
  && re_match (seqs [Bol false; Rep true 1 upper_alnum;
                     lit (py "."); Rep true 1 digit_09;
                     lit (py "."); Rep true 1 digit_09;
                     lit (py "."); Rep true 1 digit_09;
                     lit (py "@")]) email.
End Rules.

Definition is_suspicious_email `{Unicode} (email : str) : bool :=
  let '(local_part, domain) := local_and_domain email in
  rule1 local_part
  || rule2 local_part
  || rule3 local_part
  || rule4 domain
  || rule5 email local_part
  || rule6 email
  || rule7 email local_part
  || rule8 email local_part.

(** The classifier with pattern 7 taken out. *)
Definition is_suspicious_without_rule7 `{Unicode} (email : str) : bool :=
  let '(local_part, domain) := local_and_domain email in
  rule1 local_part
  || rule2 local_part
  || rule3 local_part
  || rule4 domain
  || rule5 email local_part
  || rule6 email
  || rule8 email local_part.

(** ** Records and the partitioner: [filter_suspicious_emails] *)

Record EmailRecord := mkEmailRecord {
  first_name : str;
  last_name : str;
  email : str
}.

#[global] Instance EmailRecord_eq_dec : EqDecision EmailRecord.
Proof. solve_decision. Defined.

Definition filter_suspicious_emails `{Unicode} (records : list EmailRecord)
  : list EmailRecord * list EmailRecord :=
  foldl (λ '(valid_records, suspicious_records) record,
           if is_suspicious_email (email record)
           then (valid_records, suspicious_records ++ [record])
           else (valid_records ++ [record], suspicious_records))
        ([], []) records.

(** ** [re.findall] and the e-mail extractor: [extract_emails_from_text] *)

(** The text between two positions of one subject. *)
Definition consumed (c0 c1 : cursor) : nat := length (rest c0) - length (rest c1).
Definition matched (c0 c1 : cursor) : str := take (consumed c0 c1) (rest c0).

(** A pattern without groups yields the whole match. *)
Definition whole `{Unicode} (r : regex) (cur : cursor) : option (str * nat) :=
  match step r cur with
  | e :: _ => Some (matched cur e, consumed cur e)
  | [] => None
  end.

(** A pattern [pre(grp)post] with one group yields the group. *)
Definition group1 `{Unicode} (pre grp post : regex) (cur : cursor) : option (str * nat) :=
  match
    flat_map (λ c1, flat_map (λ c2, map (λ c3, (c1, c2, c3)) (step post c2))
                             (step grp c1)) (step pre cur)
  with
  | (c1, c2, c3) :: _ => Some (matched c1 c2, consumed cur c3)
  | [] => None
  end.

(** [re.findall]: the subject is scanned from left to right; where a
    match of [n] characters starts, the next one is looked for [n]
    characters on.  [skip] counts the characters still covered by the
    last match.  (No pattern of the program matches the empty string.) *)
Fixpoint scan (m : cursor → option (str * nat)) (skip : nat)
    (prev : option char) (s : str) : list str :=
  match skip with
  | S k =>
      match s with
      | c :: s' => scan m k (Some c) s'
      | [] => []
      end
  | O =>
      match m (Cursor prev s) with
      | Some (found, n) =>
          found :: match s with
                   | c :: s' => scan m (pred n) (Some c) s'
                   | [] => []
                   end
      | None =>
          match s with
          | c :: s' => scan m O (Some c) s'
          | [] => []
          end
      end
  end.

Definition findall (m : cursor → option (str * nat)) (s : str) : list str :=
  scan m O None s.

(** [[A-Za-z0-9._%+-]], [[A-Za-z0-9.-]] and [[A-Z|a-z]]. *)
Definition local_chr (c : char) : bool :=
  upper_AZ c || lower_az c || digit_09 c || has_chr c (py "._%+-").
Definition domain_chr (c : char) : bool :=
  upper_AZ c || lower_az c || digit_09 c || has_chr c (py ".-").
Definition tld_chr (c : char) : bool :=
  upper_AZ c || (c =? ch "|") || lower_az c.

(** [[A-Za-z0-9._%+-]+@[A-Za-z0-9.-]+\.[A-Z|a-z]{2,}] *)
Definition email_shape : regex :=
  seqs [Rep true 1 local_chr; lit (py "@"); Rep true 1 domain_chr;
        lit (py "."); Rep true 2 tld_chr].

Definition email_pattern : regex := seqs [WordB; email_shape; WordB].

Definition extract_emails_from_text `{Unicode} (text : str) : gset str :=
  list_to_set (findall (whole email_pattern) text).

(** ** The record store *)

(** [sorted(list(email_records.values()), key=lambda x: x.email)]: a
    stable sort; the keys of the store are distinct, so the order the
    values come in does not show in the result. *)
Definition str_ltb (a b : str) : bool := negb (str_leb b a).

Fixpoint insert_by_email (r : EmailRecord) (l : list EmailRecord) : list EmailRecord :=
  match l with
  | [] => [r]
  | x :: l' =>
      if str_ltb (email x) (email r) then x :: insert_by_email r l' else r :: l
  end.

Definition sorted_by_email (l : list EmailRecord) : list EmailRecord :=
  foldr insert_by_email [] l.

Definition sorted_values (email_records : gmap str EmailRecord) : list EmailRecord :=
  sorted_by_email (map_to_list email_records).*2.

Definition nonempty (s : str) : bool :=
  match s with
  | [] => false
  | _ :: _ => true
  end.

(** The insert-or-merge both ingesters run for a sighting of [email]
    with the names [first_name] and [last_name]: a new e-mail gets a
    record; a known one has its empty names filled. *)
Definition merge_names (first_name' last_name' : str) (existing : EmailRecord)
  : EmailRecord :=
  let existing1 :=
    if negb (nonempty (first_name existing)) && nonempty first_name'
    then mkEmailRecord first_name' (last_name existing) (email existing)
    else existing in
  if negb (nonempty (last_name existing1)) && nonempty last_name'
  then mkEmailRecord (first_name existing1) last_name' (email existing1)
  else existing1.

Definition upsert (first_name' last_name' email' : str)
    (email_records : gmap str EmailRecord) : gmap str EmailRecord :=
  match email_records !! email' with
  | None => <[email' := mkEmailRecord first_name' last_name' email']> email_records
  | Some existing =>
      <[email' := merge_names first_name' last_name' existing]> email_records
  end.

(** One sighting after the other. *)
Definition upsert_all (first_name' last_name' : str) (emails : list str)
    (email_records : gmap str EmailRecord) : gmap str EmailRecord :=
  foldl (λ records email', upsert first_name' last_name' email' records)
        email_records emails.

(** ** The VCF ingester: [parse_vcf_file]

    The function is modelled from the text [file.read()] returns. *)

Definition TAB : char := 9.

(** [re.findall(r'BEGIN:VCARD(.*?)END:VCARD', content, re.DOTALL | re.IGNORECASE)],
    and the whole content when nothing is found. *)
Definition vcards_of `{Unicode} (content : str) : list str :=
  match findall (group1 (liti (py "BEGIN:VCARD")) (Rep false 0 dotall)
                        (liti (py "END:VCARD"))) content with
  | [] => [content]
  | vcards => vcards
  end.

(** [unfolded_lines[-1] += tail], when there is a last line. *)
Fixpoint append_last (tail : str) (unfolded_lines : list str) : list str :=
  match unfolded_lines with
  | [] => []
  | [x] => [x ++ tail]
  | x :: l' => x :: append_last tail l'
  end.

Definition unfold_lines (lines : list str) : list str :=
  foldl (λ unfolded_lines line,
           match line with
           | c :: tail =>
               if (c =? ch " ") || (c =? TAB)
               then append_last tail unfolded_lines
               else unfolded_lines ++ [line]
           | [] => unfolded_lines ++ [line]
           end) [] lines.

(** [^NAME(?:;.*?)?:(.*?)(?:\r?\n|$)] with [re.IGNORECASE | re.MULTILINE]. *)
Definition field_pre `{Unicode} (name : str) : regex :=
  seqs [Bol true; liti name;
        Opt (Seq (liti (py ";")) (Rep false 0 dot)); liti (py ":")].

Definition field_end `{Unicode} : regex :=
  Alt (Seq (Opt (liti [CR])) (liti [LF])) (Eol true).

Definition field `{Unicode} (name : str) : cursor → option (str * nat) :=
  group1 (field_pre name) (Rep false 0 dot) field_end.

(** [re.search] with a group: the first of the matches. *)
Definition search_group (m : cursor → option (str * nat)) (s : str) : option str :=
  head (findall m s).

Definition card_names `{Unicode} (vcard_unfolded : str) : str * str :=
  let full_name :=
    match search_group (field (py "FN")) vcard_unfolded with
    | Some g => strip g
    | None => []
    end in
  let '(first_name', last_name') :=
    match search_group (field (py "N")) vcard_unfolded with
    | Some g =>
        match map strip (split_chr (ch ";") g) with
        | p0 :: p1 :: _ => (p1, p0)
        | [p0] => if nonempty p0 then ([], p0) else ([], [])
        | [] => ([], [])
        end
    | None => ([], [])
    end in
  if nonempty full_name && negb (nonempty first_name') && negb (nonempty last_name')
  then match split_ws1 full_name with
       | t0 :: t1 :: _ => (t0, t1)
       | [t0] => (t0, [])
       | [] => (first_name', last_name')
       end
  else (first_name', last_name').

(** One [EMAIL] value, cleaned and validated against
    [^[A-Za-z0-9._%+-]+@[A-Za-z0-9.-]+\.[A-Z|a-z]{2,}$]. *)
Definition clean_email `{Unicode} (raw : str) : option str :=
  let email' := rstrip_chars (py ";: " ++ [TAB]) (strip raw) in
  if nonempty email' && has_chr (ch "@") email'
     && re_match (seqs [Bol false; email_shape; Eol false]) email'
  then Some email' else None.

(** The names and the cleaned e-mails of one card. *)
Definition parse_vcard `{Unicode} (vcard : str) : str * str * list str :=
  let vcard_unfolded := join [LF] (unfold_lines (split_chr LF vcard)) in
  let '(first_name', last_name') := card_names vcard_unfolded in
  let emails := findall (field (py "EMAIL")) vcard_unfolded in
  (first_name', last_name', omap clean_email emails).

Definition vcf_store `{Unicode} (content : str) : gmap str EmailRecord :=
  foldl (λ email_records vcard,
           let '(first_name', last_name', cleaned_emails) := parse_vcard vcard in
           match cleaned_emails with
           | [] => email_records
           | _ => upsert_all first_name' last_name' cleaned_emails email_records
           end) ∅ (vcards_of content).

Definition parse_vcf_file `{Unicode} (content : str) : list EmailRecord :=
  sorted_values (vcf_store content).

(** ** The CSV ingester: [find_emails_in_csv] *)

(** The [csv] module: the delimiter [csv.Sniffer().sniff(sample)] finds
    ([None] when it raises [csv.Error]), and the rows
    [list(csv.reader(file, delimiter=d))] reads ([None] when reading
    raises). *)
Class CsvModule := {
  sniff_delimiter : str → option char;
  csv_rows : char → str → option (list (list str))
}.

(** [max(delimiter_counts, key=delimiter_counts.get)]: the first of the
    largest. *)
Definition first_max (counted : list (char * nat)) : option (char * nat) :=
  foldl (λ best x,
           match best with
           | None => Some x
           | Some b => if (b.2 <? x.2)%nat then Some x else best
           end) None counted.

Definition delimiters : list char := [ch ","; ch ";"; TAB; ch "|"].

(** The delimiter the file is read with; [None]: the file is plain text. *)
Definition count_delimiters (content : str) : option char :=
  match first_max (map (λ d, (d, count_chr d content)) delimiters) with
  | Some (d, n) => if (0 <? n)%nat then Some d else None
  | None => None
  end.

Definition detect_delimiter `{Unicode} `{CsvModule} (content : str) : option char :=
  let sample := take 1024 content in
  if nonempty (strip sample)
  then match sniff_delimiter sample with
       | Some d => Some d
       | None => count_delimiters content
       end
  else Some (ch ",").

(** The row context. *)
Record RowContext := mkRowContext {
  header_row : option nat;
  first_name_col : option nat;
  last_name_col : option nat;
  email_cols : list nat
}.

Fixpoint find_index {A} (p : A → bool) (l : list A) : option nat :=
  match l with
  | [] => None
  | x :: l' => if p x then Some O else S <$> find_index p l'
  end.

Definition is_first_name (cell : str) : bool :=
  contains (py "first") cell && contains (py "name") cell.
Definition is_last_name (cell : str) : bool :=
  contains (py "last") cell && contains (py "name") cell.
Definition is_mail (cell : str) : bool :=
  contains (py "email") cell || contains (py "e-mail") cell || contains (py "mail") cell.

(** The body of [for j, cell in enumerate(row_lower)] that looks for
    e-mail columns, in row [i]. *)
Definition note_mail_column (i : nat) (c : RowContext) (jc : nat * str) : RowContext :=
  let '(j, cell) := jc in
  if is_mail cell && negb (bool_decide (j ∈ email_cols c))
  then mkRowContext (match header_row c with None => Some i | Some h => Some h end)
                    (first_name_col c) (last_name_col c) (email_cols c ++ [j])
  else c.

(** The body of [for i, row in enumerate(rows[:5])]. *)
Definition scan_header_row `{Unicode} (ctx : RowContext) (i : nat) (row : list str)
  : RowContext :=
  let row_lower := map (λ cell, strip (str_lower cell)) row in
  let ctx1 :=
    match first_name_col ctx with
    | None =>
        match find_index is_first_name row_lower with
        | Some j => mkRowContext (Some i) (Some j) (last_name_col ctx) (email_cols ctx)
        | None => ctx
        end
    | Some _ => ctx
    end in
  let ctx2 :=
    match last_name_col ctx1 with
    | None =>
        match find_index is_last_name row_lower with
        | Some j =>
            mkRowContext (match header_row ctx1 with None => Some i | Some h => Some h end)
                         (first_name_col ctx1) (Some j) (email_cols ctx1)
        | None => ctx1
        end
    | Some _ => ctx1
    end in
  foldl (note_mail_column i) ctx2 (imap pair row_lower).

Definition detect_header `{Unicode} (rows : list (list str)) : RowContext :=
  foldl (λ ctx '(i, row), scan_header_row ctx i row)
        (mkRowContext None None None []) (imap pair (take 5 rows)).

Definition start_row (ctx : RowContext) : nat :=
  match header_row ctx with
  | Some h => S h
  | None => O
  end.

(** [row[col].strip()] when the column was found and the row has it. *)
Definition name_at `{Unicode} (col : option nat) (row : list str) : str :=
  match col with
  | Some j => match row !! j with
              | Some cell => strip cell
              | None => []
              end
  | None => []
  end.

(** The e-mails of a row: of the e-mail columns, and of every cell. *)
Definition found_emails `{Unicode} (ctx : RowContext) (row : list str) : gset str :=
  foldl (λ found email_col,
           match row !! email_col with
           | Some cell =>
               if nonempty (strip cell) then found ∪ extract_emails_from_text cell
               else found
           | None => found
           end) ∅ (email_cols ctx)
  ∪ foldl (λ found cell,
             if nonempty cell && nonempty (strip cell)
             then found ∪ extract_emails_from_text cell
             else found) ∅ row.

Definition process_row `{Unicode} (ctx : RowContext)
    (email_records : gmap str EmailRecord) (row : list str) : gmap str EmailRecord :=
  upsert_all (name_at (first_name_col ctx) row) (name_at (last_name_col ctx) row)
             (elements (found_emails ctx row)) email_records.

Definition csv_store `{Unicode} (rows : list (list str)) : gmap str EmailRecord :=
  let ctx := detect_header rows in
  foldl (process_row ctx) ∅ (drop (start_row ctx) rows).

(** A file without a delimiter: every e-mail of the text, without names. *)
Definition text_store `{Unicode} (content : str) : gmap str EmailRecord :=
  foldl (λ email_records email',
           match email_records !! email' with
           | None => <[email' := mkEmailRecord [] [] email']> email_records
           | Some _ => email_records
           end) ∅ (elements (extract_emails_from_text content)).

(** The result of the ingester on the text of the file; [None]: it
    raises [Exception("Error reading CSV file: ...")]. *)
Definition find_emails_in_csv `{Unicode} `{CsvModule} (content : str)
  : option (list EmailRecord) :=
  match detect_delimiter content with
  | None => Some (sorted_values (text_store content))
  | Some delimiter =>
      match csv_rows delimiter content with
      | None => None
      | Some [] => Some []
      | Some rows => Some (sorted_values (csv_store rows))
      end
  end.

(** An instance to run the ingester on text without quotes: the reader
    splits the lines at the delimiter (a blank line is an empty row),
    and the sniffer answers [sniffed] ([None]: it fails). *)
Definition plain_lines (content : str) : list str :=
  match reverse (split_chr LF content) with
  | [] :: ls => reverse ls
  | ls => reverse ls
  end.

Definition plain_row (d : char) (line : str) : list str :=
  match line with
  | [] => []
  | _ => split_chr d line
  end.

Definition plain_csv (sniffed : option char) : CsvModule :=
  {| sniff_delimiter := λ _, sniffed;
     csv_rows := λ d content, Some (map (plain_row d) (plain_lines content)) |}.

(** ** Inputs of the scenarios *)

Definition scenario_email : str := py "a1b2c3d4e5f6g7h8i9j0k1l2m3n4o5p6@test.com".

(** Nine line feeds: a string without [@]. *)
Definition nine_line_feeds : str := replicate 9 LF.

(** "Some single character repeats 9 or more times consecutively", and
    the same of a character that [.] matches. *)
Definition repeats9 (s : str) : Prop :=
  ∃ pre c post, s = pre ++ replicate 9 c ++ post.

Definition repeats9_on_a_line (s : str) : Prop :=
  ∃ pre c post, c ≠ LF ∧ s = pre ++ replicate 9 c ++ post.

(** A text whose only address ends in the label [a|b]. *)
Definition pipe_text : str := py "x@y.a|b".

(** The text after the final [.] of an address, and the letters. *)
Definition top_level_label (address : str) : str :=
  reverse (take_until (N.eqb (ch ".")) (reverse address)).

Definition is_letter (c : char) : bool := upper_AZ c || lower_az c.

(** The card of the VCF scenario. *)
Definition john_doe_vcf : str :=
  py "BEGIN:VCARD" ++ [LF] ++ py "FN:John Doe" ++ [LF]
  ++ py "EMAIL:john@example.com" ++ [LF] ++ py "END:VCARD".

(** A file whose first row names an e-mail column and whose third row
    names a first-name column, as text and as the rows read from it. *)
Definition late_first_name_csv : str :=
  py "a,email" ++ [LF] ++ py "b,c@d.ee" ++ [LF]
  ++ py "first name,d" ++ [LF] ++ py "x,y@z.com" ++ [LF].

Definition late_first_name_rows : list (list str) :=
  [[py "a"; py "email"]; [py "b"; py "c@d.ee"];
   [py "first name"; py "d"]; [py "x"; py "y@z.com"]].

(** "The minimum row index at which any of the three detections first
    fired": the first of the first five rows with a cell that names a
    first-name, a last-name or an e-mail column. *)
Definition fires `{Unicode} (row : list str) : bool :=
  existsb (λ cell, is_first_name cell || is_last_name cell || is_mail cell)
          (map (λ cell, strip (str_lower cell)) row).

Definition first_signal_row `{Unicode} (rows : list (list str)) : option nat :=
  find_index fires (take 5 rows).

(** The first of the first five rows with a cell that names a
    first-name column. *)
Definition lowered `{Unicode} (row : list str) : list str :=
  map (λ cell, strip (str_lower cell)) row.

Definition names_first `{Unicode} (row : list str) : bool :=
  existsb is_first_name (lowered row).

Definition first_name_row `{Unicode} (rows : list (list str)) : option nat :=
  find_index names_first (take 5 rows).

(** As long as no header row is kept, no column has been found. *)
Definition nothing_found_yet (ctx : RowContext) : Prop :=
  header_row ctx = None →
  first_name_col ctx = None ∧ last_name_col ctx = None ∧ email_cols ctx = [].

(** The header scan from row [k] on, in the context [ctx]. *)
Definition scan_header_from `{Unicode} (ctx : RowContext) (k : nat)
    (rows : list (list str)) : RowContext :=
  foldl (λ ctx '(i, row), scan_header_row ctx i row) ctx
        (imap (λ i, pair (k + i)%nat) rows).

(** ** The store as a log of sightings *)

(** Every record of the store is held under its own e-mail. *)
Definition keyed (email_records : gmap str EmailRecord) : Prop :=
  ∀ k r, email_records !! k = Some r → email r = k.

(** A sighting is a first name, a last name and an e-mail; a pass
    inserts or merges its sightings one after the other. *)
Definition record_sightings (sightings : list (str * str * str))
    (email_records : gmap str EmailRecord) : gmap str EmailRecord :=
  foldl (λ records '(f, l, e), upsert f l e records) email_records sightings.

Definition with_names (f l : str) (emails : list str) : list (str * str * str) :=
  map (λ e, (f, l, e)) emails.

Definition vcf_sightings `{Unicode} (content : str) : list (str * str * str) :=
  flat_map (λ vcard, let '(f, l, cleaned_emails) := parse_vcard vcard in
                     with_names f l cleaned_emails)
           (vcards_of content).

Definition csv_sightings `{Unicode} (rows : list (list str)) : list (str * str * str) :=
  let ctx := detect_header rows in
  flat_map (λ row, with_names (name_at (first_name_col ctx) row)
                              (name_at (last_name_col ctx) row)
                              (elements (found_emails ctx row)))
           (drop (start_row ctx) rows).

(** A name field that is set stays as it is. *)
Definition kept (r r' : EmailRecord) : Prop :=
  email r' = email r
  ∧ (first_name r ≠ [] → first_name r' = first_name r)
  ∧ (last_name r ≠ [] → last_name r' = last_name r).

(** A match from [c0] to [c1] consumes the text [w]. *)
Definition consumes (c0 : cursor) (w : str) (c1 : cursor) : Prop :=
  rest c0 = w ++ rest c1.

(** The shape of what the extractor returns: a local part, [@], a
    domain, [.], and a label of two or more characters of [[A-Z|a-z]]. *)
Definition address_shape (address : str) : Prop :=
  ∃ local_part domain label,
    address = local_part ++ [ch "@"] ++ domain ++ [ch "."] ++ label
    ∧ local_part ≠ [] ∧ Forall (λ c, local_chr c = true) local_part
    ∧ domain ≠ [] ∧ Forall (λ c, domain_chr c = true) domain
    ∧ (2 ≤ length label)%nat ∧ Forall (λ c, tld_chr c = true) label.

(** The order of the sorted output. *)
Definition by_email (r1 r2 : EmailRecord) : Prop :=
  str_leb (email r1) (email r2) = true.

(** Files without a delimiter and without [@]. *)
Definition empty_file : str := [].
Definition alice_bob : str := py "alice" ++ [LF] ++ py "bob" ++ [LF].

(** The reader with the module's limit on the length of a field,
    [csv.field_size_limit()], 131072 characters: at a longer field it
    raises [csv.Error: field larger than field limit (131072)]. *)
Definition field_size_limit : N := 131072.

Definition limited_csv (sniffed : option char) : CsvModule :=
  {| sniff_delimiter := λ _, sniffed;
     csv_rows := λ d content,
       let rows := map (plain_row d) (plain_lines content) in
       if forallb (forallb (λ cell, (N.of_nat (length cell) <=? field_size_limit)%N)) rows
       then Some rows
       else None |}.

(** A file without comma, semicolon, tab, bar and [@]: 256 lines [a b],
    which fill the sample and in which the sniffer finds the space as
    delimiter, and a last line of 131073 characters. *)
Definition long_field_file : str :=
  mjoin (replicate 256 (py "a b" ++ [LF])) ++ replicate (N.to_nat 131073) (ch "x").

(** A card with three addresses, two of them twice, not in the order
    of the alphabet; the sniffer finds the colon as its delimiter. *)
Definition three_address_vcf : str :=
  py "BEGIN:VCARD" ++ [LF] ++ py "FN:John Doe" ++ [LF]
  ++ py "EMAIL:john@example.com" ++ [LF] ++ py "EMAIL:jane@example.com" ++ [LF]
  ++ py "EMAIL:anna@example.com" ++ [LF] ++ py "EMAIL:john@example.com" ++ [LF]
  ++ py "EMAIL:jane@example.com" ++ [LF] ++ py "END:VCARD".

Definition three_addresses : list str :=
  [py "anna@example.com"; py "jane@example.com"; py "john@example.com"].

(** A text without a delimiter, with two addresses, one of them twice;
    the sniffer fails on it. *)
Definition contacts_text : str :=
  py "contacts" ++ [LF] ++ py "bob@example.org" ++ [LF]
  ++ py "alice@example.com" ++ [LF] ++ py "bob@example.org" ++ [LF].

(** A text with one comma and two semicolons, on which the sniffer
    fails. *)
Definition comma_and_semicolons : str :=
  py "a,b;c;d" ++ [LF] ++ py "e" ++ [LF].

(** ** Notions for the properties of the ingesters *)

(** Strictly ascending e-mails, and a record without names. *)
Definition ascending (r1 r2 : EmailRecord) : Prop :=
  str_ltb (email r1) (email r2) = true.

Definition nameless (r : EmailRecord) : Prop :=
  first_name r = [] ∧ last_name r = [].

(** ** Notions for the properties of line folding *)

(** A line that continues the one before it. *)
Definition is_continuation (line : str) : bool :=
  match line with
  | c :: _ => (c =? ch " ") || (c =? TAB)
  | [] => false
  end.

(** A logical line, folded: its first piece, and each further piece on a
    line of its own behind a space or a tab. *)
Definition fold_line (logical : str * list (char * str)) : list str :=
  logical.1 :: map (λ '(c, piece), c :: piece) logical.2.

Definition unfolded_line (logical : str * list (char * str)) : str :=
  logical.1 ++ concat (map snd logical.2).

(** The body of the loop of [unfold_lines]. *)
Definition unfold_step (unfolded_lines : list str) (line : str) : list str :=
  match line with
  | c :: tail =>
      if (c =? ch " ") || (c =? TAB)
      then append_last tail unfolded_lines
      else unfolded_lines ++ [line]
  | [] => unfolded_lines ++ [line]
  end.

Definition well_folded (logical : str * list (char * str)) : Prop :=
  is_continuation logical.1 = false
  ∧ Forall (λ '(c, _), c = ch " " ∨ c = TAB) logical.2.

(** ** Notions for the properties of the classifier *)

(** A domain of 25 or more lower-case letters and digits before [.com],
    [.net] or [.org], possibly with a line feed behind it. *)
Definition long_random_domain (domain : str) : Prop :=
  ∃ w tld tail,
    Forall (λ c, lower_alnum c = true) w ∧ (25 ≤ length w)%nat
    ∧ tld ∈ [py "com"; py "net"; py "org"] ∧ tail ∈ [[]; [LF]]
    ∧ domain = w ++ py "." ++ tld ++ tail.

(** ** Notions for the properties of the extractor *)

(** An ASCII letter or digit, and a plain address: letters and digits,
    [@], letters and digits, [.], two or more letters. *)
Definition plain_chr (c : char) : bool := upper_AZ c || lower_az c || digit_09 c.

Definition plain_address (address : str) : Prop :=
  ∃ local_part domain label,
    address = local_part ++ [ch "@"] ++ domain ++ [ch "."] ++ label
    ∧ local_part ≠ [] ∧ Forall (λ c, plain_chr c = true) local_part
    ∧ domain ≠ [] ∧ Forall (λ c, plain_chr c = true) domain
    ∧ (2 ≤ length label)%nat ∧ Forall (λ c, is_letter c = true) label.

(** A string of a class, possibly with a line feed behind it. *)
Definition of_class (p : char → bool) (s : str) : Prop :=
  ∃ w tail, Forall (λ c, p c = true) w ∧ tail ∈ [[]; [LF]] ∧ s = w ++ tail.

(** A string that neither begins nor ends with white space. *)
Definition trimmed `{Unicode} (s : str) : Prop :=
  (∀ c, head s = Some c → chr_isspace c = false)
  ∧ (∀ c, last s = Some c → chr_isspace c = false).

(** * Properties *)

(** ** Scenarios on ASCII text *)

Section AsciiScenarios.
Local Existing Instance ascii_unicode.

(** C1, as the design document states it, does not hold: the classifier
    does not flag [a1b2c3d4e5f6g7h8i9j0k1l2m3n4o5p6@test.com]. *)
Lemma C1_scenario_is_not_true :
  is_suspicious_email scenario_email ≠ true.
Proof. vm_compute. discriminate. Qed.

(** C1, amended: the local part of
    [a1b2c3d4e5f6g7h8i9j0k1l2m3n4o5p6@test.com] has 32 characters, not
    the more than 40 of pattern 1 (nor the more than 35 of pattern 8);
    half of it is digits, not more than 70%; the address holds no
    keyword of pattern 5; no pattern fires, and the classifier returns
    false. *)
Theorem C1_scenario_returns_false :
  let '(local_part, domain) := local_and_domain scenario_email in
  length local_part = 32%nat
  ∧ rule1 local_part = false
  ∧ rule2 local_part = false
  ∧ rule3 local_part = false
  ∧ rule4 domain = false
  ∧ rule5 scenario_email local_part = false
  ∧ rule6 scenario_email = false
  ∧ rule7 scenario_email local_part = false
  ∧ rule8 scenario_email local_part = false
  ∧ is_suspicious_email scenario_email = false.
Proof. vm_compute. repeat split. Qed.
End AsciiScenarios.

(** ** Strings and positions *)

Lemma split_once_Some sep s a b :
  split_once sep s = Some (a, b) → s = a ++ sep :: b.
Proof.
  revert a b. induction s as [|c s IH]; intros a b; simpl; [discriminate|].
  destruct (N.eqb_spec c sep) as [->|Hne].
  - intros [= <- <-]. reflexivity.
  - destruct (split_once sep s) as [[a' b']|]; [|discriminate].
    intros [= <- <-]. simpl. f_equal. by apply IH.
Qed.

Lemma split_once_None sep s :
  has_chr sep s = false → split_once sep s = None.
Proof.
  unfold has_chr. induction s as [|c s IH]; simpl; [done|].
  rewrite orb_false_iff. intros [Hc Hs].
  rewrite N.eqb_sym, Hc, (IH Hs). reflexivity.
Qed.

Lemma has_chr_In c s : has_chr c s = true ↔ In c s.
Proof.
  unfold has_chr. rewrite existsb_exists. split.
  - intros (x & Hx & Heq). apply N.eqb_eq in Heq. by subst.
  - intros Hin. exists c. split; [done|]. apply N.eqb_refl.
Qed.

Lemma rest_advance k cur : rest (advance k cur) = drop k (rest cur).
Proof.
  revert cur. induction k as [|k IH]; intros [b s]; simpl.
  - by destruct s.
  - destruct s as [|c s]; simpl; [done|]. by rewrite IH.
Qed.

Lemma take_run_Forall p k s :
  (k ≤ run p s)%nat → Forall (λ c, p c = true) (take k s).
Proof.
  revert s. induction k as [|k IH]; intros s Hk; [constructor|].
  destruct s as [|c s]; simpl in *; [lia|].
  destruct (p c) eqn:Hp; [|lia].
  constructor; [done|]. apply IH. lia.
Qed.

Lemma In_counts greedy lo n k :
  In k (counts greedy lo n) → (lo ≤ k ≤ n)%nat.
Proof.
  unfold counts. destruct greedy; [rewrite <- in_rev|];
    rewrite in_seq; lia.
Qed.

(** ** What an anchored class pattern accepts *)

(** [re.match(r'^[class]{lo,}$', s)] succeeds only on a string of the
    class, possibly followed by one line feed. *)
Lemma anchored_class_match `{Unicode} greedy lo p s :
  re_match (seqs [Bol false; Rep greedy lo p; Eol false]) s = true →
  ∃ w, Forall (λ c, p c = true) w ∧ (s = w ∨ s = w ++ [LF]).
Proof.
  unfold re_match.
  destruct (step _ _) as [|e l] eqn:E; [discriminate|]. intros _.
  assert (Hin : In e (step (seqs [Bol false; Rep greedy lo p; Eol false])
                           (Cursor None s))) by (rewrite E; left; done).
  clear E. simpl in Hin. rewrite app_nil_r in Hin.
  apply in_flat_map in Hin as (m & Hm & He).
  apply in_map_iff in Hm as (k & <- & Hk).
  apply In_counts in Hk as [_ Hk]. simpl in Hk.
  unfold at_eol in He. rewrite rest_advance in He. simpl in He.
  exists (take k s). split; [by apply take_run_Forall|].
  rewrite <- (take_drop k s) at 1 3.
  destruct (drop k s) as [|c [|c' s']] eqn:Hd.
  - left. by rewrite app_nil_r.
  - right. destruct (N.eqb_spec c LF) as [->|]; [done|]. simpl in He. done.
  - simpl in He. rewrite andb_false_r in He. done.
Qed.

(** ** Pattern 7 never fires *)

Lemma rule7_never `{Unicode} email :
  rule7 email (local_and_domain email).1 = false.
Proof.
  unfold rule7, local_and_domain.
  destruct (split_once (ch "@") email) as [[a b]|] eqn:Hs; simpl; [|done].
  apply split_once_Some in Hs.
  destruct (re_match _ email) eqn:Hm; [|by rewrite andb_false_r].
  exfalso. apply anchored_class_match in Hm as (w & Hw & Hshape).
  assert (Hin : In (ch "@") w).
  { assert (Hall : In (ch "@") email) by (rewrite Hs; apply in_elt).
    destruct Hshape as [->| ->]; [done|].
    apply in_app_or in Hall as [?|[Heq|[]]]; [done|]. discriminate Heq. }
  rewrite List.Forall_forall in Hw. specialize (Hw _ Hin). discriminate Hw.
Qed.

(** C4: pattern 7 is dead code.  Whatever the input, its branch does not
    return true, and the classifier without it returns what the
    classifier returns. *)
Theorem C4_rule7_is_dead_code `{Unicode} (email : str) :
  rule7 email (local_and_domain email).1 = false
  ∧ is_suspicious_email email = is_suspicious_without_rule7 email.
Proof.
  split; [apply rule7_never|].
  unfold is_suspicious_email, is_suspicious_without_rule7.
  pose proof (rule7_never email) as H7.
  destruct (local_and_domain email) as [local_part domain]; simpl in H7.
  by rewrite H7, orb_false_r.
Qed.

(** ** Addresses without [@] *)

Lemma run_replicate c n post : (n ≤ run (N.eqb c) (replicate n c ++ post))%nat.
Proof.
  induction n as [|n IH]; simpl; [lia|]. rewrite N.eqb_refl. lia.
Qed.

Lemma run_take_replicate c n s :
  (n ≤ run (N.eqb c) s)%nat → take n s = replicate n c.
Proof.
  revert s. induction n as [|n IH]; intros s Hn; [done|].
  destruct s as [|x s]; simpl in *; [lia|].
  destruct (N.eqb_spec c x) as [->|]; [|lia].
  f_equal. apply IH. lia.
Qed.

(** [(.)\1{8,}] is found exactly in the strings that hold nine copies in
    a row of a character other than the line feed. *)
Lemma has_repeat9_cons c s :
  has_repeat9 (c :: s)
  = (dot c && (8 <=? run (N.eqb c) s)%nat) || has_repeat9 s.
Proof. reflexivity. Qed.

Lemma has_repeat9_spec s : has_repeat9 s = true ↔ repeats9_on_a_line s.
Proof.
  unfold repeats9_on_a_line. split.
  - induction s as [|c s IH]; [discriminate|].
    rewrite has_repeat9_cons, orb_true_iff, andb_true_iff. intros [[Hc Hrun]|Hs].
    + apply Nat.leb_le in Hrun. exists [], c, (drop 8 s). split.
      * unfold dot in Hc. intros ->. discriminate Hc.
      * change ([] ++ replicate 9 c ++ drop 8 s)
          with (c :: (replicate 8 c ++ drop 8 s)).
        f_equal. rewrite <- (run_take_replicate c 8 s Hrun).
        by rewrite take_drop.
    + destruct (IH Hs) as (pre & x & post & Hx & ->).
      by exists (c :: pre), x, post.
  - intros (pre & c & post & Hc & ->).
    induction pre as [|x pre IH].
    + change ([] ++ replicate 9 c ++ post) with (c :: replicate 8 c ++ post).
      rewrite has_repeat9_cons.
      apply orb_true_iff. left. apply andb_true_iff. split.
      * unfold dot. by destruct (N.eqb_spec c LF).
      * apply Nat.leb_le. apply (run_replicate c 8).
    + change ((x :: pre) ++ replicate 9 c ++ post)
        with (x :: (pre ++ replicate 9 c ++ post)).
      rewrite has_repeat9_cons.
      apply orb_true_iff. right. exact IH.
Qed.

Lemma no_at_classification `{Unicode} email :
  has_chr (ch "@") email = false →
  is_suspicious_email email = rule6 email.
Proof.
  intros Hat. unfold is_suspicious_email, local_and_domain.
  rewrite (split_once_None _ _ Hat). simpl.
  unfold rule5, rule3. simpl. by rewrite !andb_false_r, !orb_false_r.
Qed.

(** C10, as stated, does not hold: nine line feeds are a string without
    [@] in which one character repeats nine times, lower-cased or not,
    and the classifier returns false on it. *)
Lemma C10_nine_line_feeds_not_flagged :
  has_chr (ch "@") nine_line_feeds = false
  ∧ repeats9 (@str_lower ascii_unicode nine_line_feeds)
  ∧ @is_suspicious_email ascii_unicode nine_line_feeds = false.
Proof.
  split; [done|]. split; [|by vm_compute].
  by exists [], LF, [].
Qed.

(** C10, amended: on a string without [@] the local part and the domain
    are empty, every pattern but the sixth is false, and the classifier
    returns true exactly when some character other than the line feed
    occurs nine or more times in a row in the lower-cased string. *)
Theorem C10_no_at_is_rule6 `{Unicode} (email : str)
    (Hat : has_chr (ch "@") email = false) :
  local_and_domain email = ([], [])
  ∧ rule1 [] = false ∧ rule2 [] = false ∧ rule3 [] = false
  ∧ rule4 [] = false ∧ rule5 email [] = false
  ∧ rule7 email [] = false ∧ rule8 email [] = false
  ∧ (is_suspicious_email email = true ↔ repeats9_on_a_line (str_lower email)).
Proof.
  split.
  { unfold local_and_domain. by rewrite (split_once_None _ _ Hat). }
  repeat (split; [first [done | unfold rule5; simpl; by rewrite !andb_false_r]|]).
  rewrite (no_at_classification _ Hat). apply has_repeat9_spec.
Qed.

Lemma C10_no_at_is_rule6_witness :
  @is_suspicious_email ascii_unicode (py "aaaaaaaaaa") = true
  ↔ repeats9_on_a_line (@str_lower ascii_unicode (py "aaaaaaaaaa")).
Proof.
  apply (@C10_no_at_is_rule6 ascii_unicode (py "aaaaaaaaaa")).
  reflexivity.
Defined.

(** ** The partitioner *)

Lemma filter_suspicious_emails_acc `{Unicode} records valid suspicious :
  foldl (λ '(valid_records, suspicious_records) record,
           if is_suspicious_email (email record)
           then (valid_records, suspicious_records ++ [record])
           else (valid_records ++ [record], suspicious_records))
        (valid, suspicious) records
  = (valid ++ filter (λ r, is_suspicious_email (email r) = false) records,
     suspicious ++ filter (λ r, is_suspicious_email (email r) = true) records).
Proof.
  revert valid suspicious.
  induction records as [|r records IH]; intros valid suspicious; simpl.
  - by rewrite !app_nil_r.
  - destruct (is_suspicious_email (email r)) eqn:Hr; rewrite IH.
    + rewrite (filter_cons_False (λ r, is_suspicious_email (email r) = false)) by congruence.
      rewrite (filter_cons_True (λ r, is_suspicious_email (email r) = true)) by done.
      by rewrite <- app_assoc.
    + rewrite (filter_cons_True (λ r, is_suspicious_email (email r) = false)) by done.
      rewrite (filter_cons_False (λ r, is_suspicious_email (email r) = true)) by congruence.
      by rewrite <- app_assoc.
Qed.

Lemma filter_split_Permutation `{Unicode} (records : list EmailRecord) :
  filter (λ r, is_suspicious_email (email r) = false) records
  ++ filter (λ r, is_suspicious_email (email r) = true) records ≡ₚ records.
Proof.
  induction records as [|r records IH]; [done|].
  destruct (is_suspicious_email (email r)) eqn:Hr.
  - rewrite (filter_cons_False (λ r, is_suspicious_email (email r) = false)) by congruence.
    rewrite (filter_cons_True (λ r, is_suspicious_email (email r) = true)) by done.
    rewrite <- Permutation_middle. by constructor.
  - rewrite (filter_cons_True (λ r, is_suspicious_email (email r) = false)) by done.
    rewrite (filter_cons_False (λ r, is_suspicious_email (email r) = true)) by congruence.
    simpl. by constructor.
Qed.

(** C5: the partitioner splits its input in two: the valid list is the
    input restricted to the records whose e-mail is not suspicious, the
    suspicious list the input restricted to those whose e-mail is, both
    in the order of the input; together they hold every record of the
    input as often as the input does, and no record is in both. *)
Theorem C5_partition_is_a_strict_split `{Unicode} (records : list EmailRecord) :
  let '(valid_records, suspicious_records) := filter_suspicious_emails records in
  valid_records = filter (λ r, is_suspicious_email (email r) = false) records
  ∧ suspicious_records = filter (λ r, is_suspicious_email (email r) = true) records
  ∧ valid_records ++ suspicious_records ≡ₚ records
  ∧ (∀ r, r ∈ valid_records → r ∉ suspicious_records)
  ∧ (∀ r, r ∈ records → r ∈ valid_records ∨ r ∈ suspicious_records)
  ∧ valid_records `sublist_of` records
  ∧ suspicious_records `sublist_of` records.
Proof.
  unfold filter_suspicious_emails. rewrite filter_suspicious_emails_acc. simpl.
  repeat split.
  - apply filter_split_Permutation.
  - intros r Hv Hs. apply list_elem_of_filter in Hv as [Hv _].
    apply list_elem_of_filter in Hs as [Hs _]. congruence.
  - intros r Hr. destruct (is_suspicious_email (email r)) eqn:E;
      [right|left]; by apply list_elem_of_filter.
  - apply sublist_filter.
  - apply sublist_filter.
Qed.

(** ** The scenarios of the extractor and the ingesters *)

(** C3: on the text [x@y.a|b] the extractor returns [x@y.a|b], whose
    top-level label [a|b] holds a character that is no letter: the class
    [[A-Z|a-z]] of the pattern admits the bar.  The validation of the
    VCF ingester, written with the same class, accepts the value too. *)
Theorem C3_bar_in_top_level_label :
  elements (@extract_emails_from_text ascii_unicode pipe_text) = [py "x@y.a|b"]
  ∧ top_level_label (py "x@y.a|b") = py "a|b"
  ∧ forallb is_letter (py "a|b") = false
  ∧ @clean_email ascii_unicode pipe_text = Some (py "x@y.a|b").
Proof. by vm_compute. Qed.

(** C8: the card [BEGIN:VCARD / FN:John Doe / EMAIL:john@example.com /
    END:VCARD] yields one record, John, Doe, john@example.com: there is
    no N field, and the FN value is split at its first white space. *)
Theorem C8_john_doe_card :
  let body := [LF] ++ py "FN:John Doe" ++ [LF] ++ py "EMAIL:john@example.com" ++ [LF] in
  @vcards_of ascii_unicode john_doe_vcf = [body]
  ∧ search_group (@field ascii_unicode (py "FN")) body = Some (py "John Doe")
  ∧ search_group (@field ascii_unicode (py "N")) body = None
  ∧ @split_ws1 ascii_unicode (py "John Doe") = [py "John"; py "Doe"]
  ∧ @parse_vcard ascii_unicode body = (py "John", py "Doe", [py "john@example.com"])
  ∧ @parse_vcf_file ascii_unicode john_doe_vcf
    = [mkEmailRecord (py "John") (py "Doe") (py "john@example.com")].
Proof. by vm_compute. Qed.

(** C2: in [a,email / b,c@d.ee / first name,d / x,y@z.com] the e-mail
    column is found in row 0, the first row a detection fires at, and
    the first-name column in row 2; the header row the ingester keeps is
    row 2, it starts at row 3, and the address of row 1 is lost. *)
Theorem C2_first_name_moves_the_header_row :
  @csv_rows (plain_csv (Some (ch ","))) (ch ",") late_first_name_csv
  = Some late_first_name_rows
  ∧ @first_signal_row ascii_unicode late_first_name_rows = Some 0%nat
  ∧ header_row (@scan_header_row ascii_unicode (mkRowContext None None None []) 0
                  [py "a"; py "email"]) = Some 0%nat
  ∧ header_row (@detect_header ascii_unicode late_first_name_rows) = Some 2%nat
  ∧ start_row (@detect_header ascii_unicode late_first_name_rows) = 3%nat
  ∧ @find_emails_in_csv ascii_unicode (plain_csv (Some (ch ","))) late_first_name_csv
    = Some [mkEmailRecord (py "x") [] (py "y@z.com")].
Proof. by vm_compute. Qed.

(** ** One record per e-mail *)

Lemma merge_names_email f l r : email (merge_names f l r) = email r.
Proof.
  unfold merge_names.
  destruct (negb (nonempty (first_name r)) && nonempty f);
    match goal with |- context [if ?b then _ else _] => destruct b end; done.
Qed.

Lemma keyed_insert k r m : email r = k → keyed m → keyed (<[k := r]> m).
Proof.
  intros Hr Hm k' r'. rewrite lookup_insert. case_decide; simplify_eq.
  - by intros [= <-].
  - apply Hm.
Qed.

Lemma keyed_upsert f l e m : keyed m → keyed (upsert f l e m).
Proof.
  intros Hm. unfold upsert. destruct (m !! e) as [existing|] eqn:He.
  - apply keyed_insert; [|done]. rewrite merge_names_email. by apply Hm.
  - by apply keyed_insert.
Qed.

Lemma keyed_upsert_all f l emails m : keyed m → keyed (upsert_all f l emails m).
Proof.
  unfold upsert_all. revert m.
  induction emails as [|e emails IH]; intros m Hm; simpl; [done|].
  apply IH. by apply keyed_upsert.
Qed.

Lemma keyed_foldl {A} (f : gmap str EmailRecord → A → gmap str EmailRecord) l m :
  (∀ m x, keyed m → keyed (f m x)) → keyed m → keyed (foldl f m l).
Proof.
  intros Hf. revert m. induction l as [|x l IH]; intros m Hm; simpl; [done|].
  apply IH. by apply Hf.
Qed.

Lemma keyed_empty : keyed ∅.
Proof. intros k r. by rewrite lookup_empty. Qed.

Lemma keyed_vcf_store `{Unicode} content : keyed (vcf_store content).
Proof.
  unfold vcf_store. apply keyed_foldl; [|apply keyed_empty].
  intros m vcard Hm. destruct (parse_vcard vcard) as [[f l] [|e es]]; [done|].
  by apply keyed_upsert_all.
Qed.

Lemma keyed_csv_store `{Unicode} rows : keyed (csv_store rows).
Proof.
  unfold csv_store. apply keyed_foldl; [|apply keyed_empty].
  intros m row Hm. by apply keyed_upsert_all.
Qed.

Lemma keyed_text_store `{Unicode} content : keyed (text_store content).
Proof.
  unfold text_store. apply keyed_foldl; [|apply keyed_empty].
  intros m e Hm. destruct (m !! e); [done|]. by apply keyed_insert.
Qed.

Lemma insert_by_email_Permutation r l : insert_by_email r l ≡ₚ r :: l.
Proof.
  induction l as [|x l IH]; simpl; [done|].
  destruct (str_ltb (email x) (email r)); [|done].
  rewrite IH. apply Permutation_swap.
Qed.

Lemma sorted_by_email_Permutation l : sorted_by_email l ≡ₚ l.
Proof.
  induction l as [|x l IH]; simpl; [done|].
  rewrite insert_by_email_Permutation. by constructor.
Qed.

Lemma sorted_values_NoDup m : keyed m → NoDup (email <$> sorted_values m).
Proof.
  intros Hm. unfold sorted_values.
  rewrite sorted_by_email_Permutation.
  assert (Hk : email <$> (map_to_list m).*2 = (map_to_list m).*1).
  { rewrite <- list_fmap_compose. apply Forall_fmap_ext_1.
    apply Forall_forall. intros [k r] Hkr. simpl.
    apply elem_of_map_to_list in Hkr. by apply Hm. }
  rewrite Hk. apply NoDup_fst_map_to_list.
Qed.

(** C7: the list the VCF ingester returns, and the list the CSV ingester
    returns when it returns one, hold no two records with the same
    e-mail. *)
Theorem C7_one_record_per_email `{Unicode} `{CsvModule} (content : str)
    (records : list EmailRecord)
    (Hcsv : find_emails_in_csv content = Some records) :
  NoDup (email <$> records) ∧ NoDup (email <$> parse_vcf_file content).
Proof.
  split.
  - unfold find_emails_in_csv in Hcsv.
    destruct (detect_delimiter content) as [d|].
    + destruct (csv_rows d content) as [[|row rows]|]; simplify_eq.
      * constructor.
      * apply sorted_values_NoDup, keyed_csv_store.
    + simplify_eq. apply sorted_values_NoDup, keyed_text_store.
  - apply sorted_values_NoDup, keyed_vcf_store.
Qed.

Lemma C7_one_record_per_email_witness :
  @find_emails_in_csv ascii_unicode (plain_csv (Some (ch ":"))) three_address_vcf
  = Some (mkEmailRecord [] [] <$> three_addresses)
  ∧ @parse_vcf_file ascii_unicode three_address_vcf
    = mkEmailRecord (py "John") (py "Doe") <$> three_addresses
  ∧ NoDup (email <$> (mkEmailRecord [] [] <$> three_addresses))
  ∧ NoDup (email <$> @parse_vcf_file ascii_unicode three_address_vcf).
Proof.
  assert (Hcsv : @find_emails_in_csv ascii_unicode (plain_csv (Some (ch ":")))
                   three_address_vcf
                 = Some (mkEmailRecord [] [] <$> three_addresses))
    by (vm_compute; reflexivity).
  split; [exact Hcsv|]. split; [vm_compute; reflexivity|].
  exact (@C7_one_record_per_email ascii_unicode (plain_csv (Some (ch ":")))
           three_address_vcf _ Hcsv).
Defined.

(** ** Merging is monotonic *)

Lemma nonempty_false s : nonempty s = false ↔ s = [].
Proof. by destruct s. Qed.

Lemma nonempty_true s : nonempty s = true ↔ s ≠ [].
Proof. by destruct s. Qed.

Lemma merge_names_first f l r :
  first_name (merge_names f l r)
  = if nonempty (first_name r) then first_name r else f.
Proof.
  unfold merge_names. destruct r as [rf rl re]; simpl.
  destruct rf, f, rl, l; reflexivity.
Qed.

Lemma merge_names_last f l r :
  last_name (merge_names f l r)
  = if nonempty (last_name r) then last_name r else l.
Proof.
  unfold merge_names. destruct r as [rf rl re]; simpl.
  destruct rf, f, rl, l; reflexivity.
Qed.

Lemma kept_refl r : kept r r.
Proof. by repeat split. Qed.

Lemma kept_trans r1 r2 r3 : kept r1 r2 → kept r2 r3 → kept r1 r3.
Proof.
  intros (He & Hf & Hl) (He' & Hf' & Hl'). repeat split.
  - congruence.
  - intros Hne. rewrite <- (Hf Hne). apply Hf'. by rewrite (Hf Hne).
  - intros Hne. rewrite <- (Hl Hne). apply Hl'. by rewrite (Hl Hne).
Qed.

Lemma kept_merge_names f l r : kept r (merge_names f l r).
Proof.
  repeat split.
  - apply merge_names_email.
  - intros Hne. rewrite merge_names_first.
    apply nonempty_true in Hne. by rewrite Hne.
  - intros Hne. rewrite merge_names_last.
    apply nonempty_true in Hne. by rewrite Hne.
Qed.

Lemma upsert_lookup_eq f l e m r :
  m !! e = Some r → upsert f l e m !! e = Some (merge_names f l r).
Proof. intros Hr. unfold upsert. rewrite Hr. apply lookup_insert_eq. Qed.

Lemma upsert_lookup_ne f l e' e m :
  e' ≠ e → upsert f l e' m !! e = m !! e.
Proof.
  intros Hne. unfold upsert.
  destruct (m !! e'); by rewrite lookup_insert_ne.
Qed.

Lemma upsert_kept f l e' m e r :
  m !! e = Some r → ∃ r', upsert f l e' m !! e = Some r' ∧ kept r r'.
Proof.
  intros Hr. destruct (decide (e' = e)) as [->|Hne].
  - exists (merge_names f l r). split; [by apply upsert_lookup_eq|].
    apply kept_merge_names.
  - exists r. split; [by rewrite upsert_lookup_ne|apply kept_refl].
Qed.

Lemma record_sightings_kept sightings m e r :
  m !! e = Some r →
  ∃ r', record_sightings sightings m !! e = Some r' ∧ kept r r'.
Proof.
  revert m r. induction sightings as [|[[f l] e'] sightings IH]; intros m r Hr.
  - exists r. split; [done|apply kept_refl].
  - destruct (upsert_kept f l e' m e r Hr) as (r1 & Hr1 & Hk1).
    destruct (IH _ _ Hr1) as (r2 & Hr2 & Hk2).
    exists r2. split; [exact Hr2|]. by eapply kept_trans.
Qed.

Lemma record_sightings_app s1 s2 m :
  record_sightings (s1 ++ s2) m = record_sightings s2 (record_sightings s1 m).
Proof. unfold record_sightings. apply foldl_app. Qed.

(** Sightings without a first name leave an empty first name empty, and
    likewise for the last name. *)
Lemma first_name_stays_empty sightings m e r :
  m !! e = Some r → first_name r = [] →
  (∀ f' l', (f', l', e) ∈ sightings → f' = []) →
  ∃ r', record_sightings sightings m !! e = Some r' ∧ first_name r' = [].
Proof.
  revert m r. induction sightings as [|[[f l] e'] sightings IH]; intros m r Hr Hf Hs.
  - by exists r.
  - assert (Hrest : ∀ f' l', (f', l', e) ∈ sightings → f' = []).
    { intros f' l' Hin. apply (Hs f' l'). by right. }
    destruct (decide (e' = e)) as [->|Hne].
    + apply (IH _ (merge_names f l r)); [by apply upsert_lookup_eq| |done].
      rewrite merge_names_first, Hf. simpl. apply (Hs f l). by left.
    + apply (IH _ r); [by rewrite upsert_lookup_ne|done|done].
Qed.

Lemma last_name_stays_empty sightings m e r :
  m !! e = Some r → last_name r = [] →
  (∀ f' l', (f', l', e) ∈ sightings → l' = []) →
  ∃ r', record_sightings sightings m !! e = Some r' ∧ last_name r' = [].
Proof.
  revert m r. induction sightings as [|[[f l] e'] sightings IH]; intros m r Hr Hl Hs.
  - by exists r.
  - assert (Hrest : ∀ f' l', (f', l', e) ∈ sightings → l' = []).
    { intros f' l' Hin. apply (Hs f' l'). by right. }
    destruct (decide (e' = e)) as [->|Hne].
    + apply (IH _ (merge_names f l r)); [by apply upsert_lookup_eq| |done].
      rewrite merge_names_last, Hl. simpl. apply (Hs f l). by left.
    + apply (IH _ r); [by rewrite upsert_lookup_ne|done|done].
Qed.

Lemma first_name_filled earlier f l e later m r :
  m !! e = Some r → first_name r = [] → f ≠ [] →
  (∀ f' l', (f', l', e) ∈ earlier → f' = []) →
  ∃ r', record_sightings (earlier ++ (f, l, e) :: later) m !! e = Some r'
        ∧ first_name r' = f.
Proof.
  intros Hr Hf Hne Hs.
  destruct (first_name_stays_empty earlier m e r Hr Hf Hs) as (r1 & Hr1 & Hf1).
  rewrite record_sightings_app.
  change (record_sightings ((f, l, e) :: later) (record_sightings earlier m))
    with (record_sightings later (upsert f l e (record_sightings earlier m))).
  pose proof (upsert_lookup_eq f l e _ _ Hr1) as Hr2.
  destruct (record_sightings_kept later _ e _ Hr2) as (r3 & Hr3 & _ & Hk & _).
  exists r3. split; [exact Hr3|].
  rewrite merge_names_first, Hf1 in Hk. simpl in Hk. by apply Hk.
Qed.

Lemma last_name_filled earlier f l e later m r :
  m !! e = Some r → last_name r = [] → l ≠ [] →
  (∀ f' l', (f', l', e) ∈ earlier → l' = []) →
  ∃ r', record_sightings (earlier ++ (f, l, e) :: later) m !! e = Some r'
        ∧ last_name r' = l.
Proof.
  intros Hr Hl Hne Hs.
  destruct (last_name_stays_empty earlier m e r Hr Hl Hs) as (r1 & Hr1 & Hl1).
  rewrite record_sightings_app.
  change (record_sightings ((f, l, e) :: later) (record_sightings earlier m))
    with (record_sightings later (upsert f l e (record_sightings earlier m))).
  pose proof (upsert_lookup_eq f l e _ _ Hr1) as Hr2.
  destruct (record_sightings_kept later _ e _ Hr2) as (r3 & Hr3 & _ & _ & Hk).
  exists r3. split; [exact Hr3|].
  rewrite merge_names_last, Hl1 in Hk. simpl in Hk. by apply Hk.
Qed.

(** The passes of the two ingesters are logs of sightings. *)
Lemma upsert_all_sightings f l emails m :
  upsert_all f l emails m = record_sightings (with_names f l emails) m.
Proof.
  unfold upsert_all, record_sightings, with_names. revert m.
  induction emails as [|e emails IH]; intros m; simpl; [done|]. apply IH.
Qed.

Lemma record_sightings_flat_map {A} (g : A → list (str * str * str)) l m :
  record_sightings (flat_map g l) m
  = foldl (λ records x, record_sightings (g x) records) m l.
Proof.
  revert m. induction l as [|x l IH]; intros m; simpl; [done|].
  by rewrite record_sightings_app, IH.
Qed.

Lemma foldl_ext_all {A B} (f g : A → B → A) l a :
  (∀ a x, f a x = g a x) → foldl f a l = foldl g a l.
Proof.
  intros Hfg. revert a. induction l as [|x l IH]; intros a; simpl; [done|].
  by rewrite Hfg, IH.
Qed.

Lemma csv_store_sightings `{Unicode} rows :
  csv_store rows = record_sightings (csv_sightings rows) ∅.
Proof.
  unfold csv_store, csv_sightings. simpl.
  rewrite record_sightings_flat_map. apply foldl_ext_all.
  intros m row. apply upsert_all_sightings.
Qed.

Lemma vcf_store_sightings `{Unicode} content :
  vcf_store content = record_sightings (vcf_sightings content) ∅.
Proof.
  unfold vcf_store, vcf_sightings.
  rewrite record_sightings_flat_map. apply foldl_ext_all.
  intros m vcard. destruct (parse_vcard vcard) as [[f l] [|e es]]; [done|].
  apply upsert_all_sightings.
Qed.

(** C6: merging is monotonic.  The pass of the CSV ingester over its
    rows and the pass of the VCF ingester over its cards insert or merge
    their sightings one after the other; whatever the sightings that
    follow, a record keeps its e-mail and every name field that is not
    empty; and an empty name field is filled by the first later sighting
    of the e-mail that carries a name for it. *)
Theorem C6_merge_is_monotonic `{Unicode} (rows : list (list str)) (content : str) :
  csv_store rows = record_sightings (csv_sightings rows) ∅
  ∧ vcf_store content = record_sightings (vcf_sightings content) ∅
  ∧ (∀ sightings email_records e r,
       email_records !! e = Some r →
       ∃ r', record_sightings sightings email_records !! e = Some r'
             ∧ email r' = email r
             ∧ (first_name r ≠ [] → first_name r' = first_name r)
             ∧ (last_name r ≠ [] → last_name r' = last_name r))
  ∧ (∀ earlier f l e later email_records r,
       email_records !! e = Some r → first_name r = [] → f ≠ [] →
       (∀ f' l', (f', l', e) ∈ earlier → f' = []) →
       ∃ r', record_sightings (earlier ++ (f, l, e) :: later) email_records !! e
             = Some r' ∧ first_name r' = f)
  ∧ (∀ earlier f l e later email_records r,
       email_records !! e = Some r → last_name r = [] → l ≠ [] →
       (∀ f' l', (f', l', e) ∈ earlier → l' = []) →
       ∃ r', record_sightings (earlier ++ (f, l, e) :: later) email_records !! e
             = Some r' ∧ last_name r' = l).
Proof.
  split; [apply csv_store_sightings|].
  split; [apply vcf_store_sightings|].
  split; [|split].
  - intros sightings m e r Hr. apply (record_sightings_kept sightings m e r Hr).
  - intros earlier f l e later m r Hr Hf Hne Hs.
    by apply (first_name_filled earlier f l e later m r).
  - intros earlier f l e later m r Hr Hl Hne Hs.
    by apply (last_name_filled earlier f l e later m r).
Qed.

(** ** Text without [@] holds no address *)

Lemma step_rest_suffix `{Unicode} r cur e :
  In e (step r cur) → rest e `suffix_of` rest cur.
Proof.
  revert cur e. induction r as [|p|greedy lo p|r IH|r1 IH1 r2 IH2|r1 IH1 r2 IH2|m|m|];
    intros cur e Hin; simpl in Hin.
  - destruct Hin as [<-|[]]. done.
  - destruct (rest cur) as [|c s'] eqn:Hrest; [done|].
    destruct (p c); [|done]. destruct Hin as [<-|[]]. simpl.
    by apply suffix_cons_r.
  - apply in_map_iff in Hin as (k & <- & _).
    rewrite rest_advance. apply suffix_drop.
  - apply in_app_or in Hin as [Hin|[<-|[]]]; [by apply IH|done].
  - apply in_flat_map in Hin as (mid & Hmid & Hin).
    etrans; [by apply IH2|by apply IH1].
  - apply in_app_or in Hin as [Hin|Hin]; [by apply IH1|by apply IH2].
  - destruct (at_bol m cur); [|done]. by destruct Hin as [<-|[]].
  - destruct (at_eol m cur); [|done]. by destruct Hin as [<-|[]].
  - destruct (at_wordb cur); [|done]. by destruct Hin as [<-|[]].
Qed.

Lemma step_Seq `{Unicode} r1 r2 cur :
  step (Seq r1 r2) cur = flat_map (step r2) (step r1 cur).
Proof. reflexivity. Qed.

(** A pattern with a literal character in it matches only where the
    character occurs. *)
Lemma step_through_literal `{Unicode} r1 c r2 cur e :
  In e (step (Seq r1 (Seq (Seq (Cls (N.eqb c)) Eps) r2)) cur) → c ∈ rest cur.
Proof.
  intros Hin. simpl in Hin.
  apply in_flat_map in Hin as (mid & Hmid & Hin).
  apply step_rest_suffix in Hmid.
  apply in_flat_map in Hin as (mid2 & Hmid2 & _).
  apply in_flat_map in Hmid2 as (mid3 & Hmid3 & _).
  destruct (rest mid) as [|x s'] eqn:Hrest; [done|].
  destruct (N.eqb_spec c x) as [->|]; [|done].
  eapply elem_of_suffix; [|exact Hmid]. by left.
Qed.

Lemma email_pattern_needs_at `{Unicode} cur :
  has_chr (ch "@") (rest cur) = false → whole email_pattern cur = None.
Proof.
  intros Hat. unfold whole.
  destruct (step email_pattern cur) as [|e l] eqn:E; [done|]. exfalso.
  assert (Hin : In e (step email_pattern cur)) by (rewrite E; by left).
  clear E. change email_pattern with (Seq WordB (Seq email_shape WordB)) in Hin.
  rewrite step_Seq in Hin.
  apply in_flat_map in Hin as (mid & Hmid & Hin).
  assert (mid = cur) as ->.
  { simpl in Hmid. destruct (at_wordb cur); [|done]. by destruct Hmid as [->|[]]. }
  rewrite step_Seq in Hin.
  apply in_flat_map in Hin as (mid2 & Hmid2 & _).
  apply (step_through_literal (Rep true 1 local_chr) (ch "@")) in Hmid2.
  apply list_elem_of_In, has_chr_In in Hmid2. congruence.
Qed.

Lemma scan_nothing (m : cursor → option (str * nat)) prev s :
  (∀ prev' s', s' `suffix_of` s → m (Cursor prev' s') = None) →
  scan m O prev s = [].
Proof.
  revert prev. induction s as [|c s IH]; intros prev Hm; simpl.
  - by rewrite Hm.
  - rewrite Hm by done. apply IH. intros prev' s' Hs.
    apply Hm. by apply suffix_cons_r.
Qed.

Lemma has_chr_suffix c s' s :
  s' `suffix_of` s → has_chr c s = false → has_chr c s' = false.
Proof.
  intros [pre ->]. unfold has_chr. rewrite existsb_app, orb_false_iff. tauto.
Qed.

Lemma extract_without_at `{Unicode} text :
  has_chr (ch "@") text = false → extract_emails_from_text text = ∅.
Proof.
  intros Hat. unfold extract_emails_from_text, findall.
  rewrite scan_nothing; [done|].
  intros prev' s' Hs. apply email_pattern_needs_at. simpl.
  by eapply has_chr_suffix.
Qed.

(** ** Files without a delimiter and without [@] *)

Lemma count_chr_absent d content :
  has_chr d content = false → count_chr d content = O.
Proof.
  unfold has_chr, count_chr. induction content as [|c content IH]; simpl; [done|].
  rewrite orb_false_iff. intros [Hc Hrest].
  rewrite filter_cons_False; [by apply IH|].
  intros ->. by rewrite N.eqb_refl in Hc.
Qed.

Lemma count_delimiters_none content :
  forallb (λ d, negb (has_chr d content)) delimiters = true →
  count_delimiters content = None.
Proof.
  unfold delimiters. simpl. rewrite !andb_true_iff, !negb_true_iff.
  intros (H1 & H2 & H3 & H4 & _).
  unfold count_delimiters, delimiters. simpl.
  by rewrite !count_chr_absent.
Qed.

Lemma foldl_fixed {A B} (f : A → B → A) (l : list B) a :
  (∀ x, x ∈ l → f a x = a) → foldl f a l = a.
Proof.
  induction l as [|x l IH]; intros Hf; simpl; [done|].
  rewrite Hf by (by left). apply IH. intros y Hy. apply Hf. by right.
Qed.

Lemma found_emails_without_at `{Unicode} ctx row :
  (∀ cell, cell ∈ row → has_chr (ch "@") cell = false) →
  found_emails ctx row = ∅.
Proof.
  intros Hrow. unfold found_emails.
  rewrite !foldl_fixed; [by rewrite (left_id_L ∅ (∪))| |].
  - intros cell Hcell. rewrite (extract_without_at cell) by by apply Hrow.
    rewrite (left_id_L ∅ (∪)). by destruct (_ && _).
  - intros col _. destruct (row !! col) as [cell|] eqn:Hcell; [|done].
    rewrite (extract_without_at cell).
    + rewrite (left_id_L ∅ (∪)). by destruct (nonempty _).
    + apply Hrow. by eapply list_elem_of_lookup_2.
Qed.

Lemma csv_store_without_at `{Unicode} rows :
  (∀ row cell, row ∈ rows → cell ∈ row → has_chr (ch "@") cell = false) →
  csv_store rows = ∅.
Proof.
  intros Hrows. unfold csv_store. apply foldl_fixed.
  intros row Hrow. unfold process_row.
  rewrite found_emails_without_at; [by rewrite elements_empty|].
  intros cell Hcell. apply (Hrows row cell); [|done].
  by eapply subseteq_drop.
Qed.

Lemma text_store_without_at `{Unicode} content :
  has_chr (ch "@") content = false → text_store content = ∅.
Proof.
  intros Hat. unfold text_store.
  by rewrite (extract_without_at _ Hat), elements_empty.
Qed.

Lemma sorted_values_empty : sorted_values ∅ = [].
Proof. unfold sorted_values. by rewrite map_to_list_empty. Qed.

(** C9, as stated, does not hold, in its route and in its result.  The
    empty file has no delimiter and no [@]; its blank sample is not
    sniffed, the delimiter stays the comma, and the file is read as
    CSV, not handed to the extractor.  The file of 256 lines [a b] and
    a line of 131073 [x] has no delimiter and no [@] either; the sniffer
    names the space in its sample, the file is read as CSV, and the
    reader raises [csv.Error] at the long field, which the ingester
    raises again: no list is returned. *)
Lemma C9_read_as_csv_and_reader_raises :
  (forallb (λ d, negb (has_chr d empty_file)) delimiters = true
   ∧ has_chr (ch "@") empty_file = false
   ∧ @detect_delimiter ascii_unicode (plain_csv None) empty_file = Some (ch ","))
  ∧ (forallb (λ d, negb (has_chr d long_field_file)) delimiters = true
     ∧ has_chr (ch "@") long_field_file = false
     ∧ @detect_delimiter ascii_unicode (limited_csv (Some (ch " "))) long_field_file
       = Some (ch " ")
     ∧ @find_emails_in_csv ascii_unicode (limited_csv (Some (ch " "))) long_field_file
       = None).
Proof. by vm_compute. Qed.

(** C9, amended: for a file without comma, semicolon, tab, bar and [@],
    the extractor finds nothing.  When the sample is not blank and
    sniffing it fails, the file is handed to the extractor as plain text
    and the ingester returns the empty list.  When the sample is blank
    the delimiter is the comma, when the sniffer names a delimiter it is
    that one, and the file is read as CSV: the ingester returns the
    empty list whenever the reader returns rows, their cells without
    [@]. *)
Theorem C9_no_delimiter_no_at `{Unicode} `{CsvModule} (content : str)
    (Hdelim : forallb (λ d, negb (has_chr d content)) delimiters = true)
    (Hat : has_chr (ch "@") content = false) :
  extract_emails_from_text content = ∅
  ∧ (nonempty (strip (take 1024 content)) = true →
     sniff_delimiter (take 1024 content) = None →
     detect_delimiter content = None ∧ find_emails_in_csv content = Some [])
  ∧ (nonempty (strip (take 1024 content)) = false →
     detect_delimiter content = Some (ch ","))
  ∧ (∀ d, nonempty (strip (take 1024 content)) = true →
     sniff_delimiter (take 1024 content) = Some d →
     detect_delimiter content = Some d)
  ∧ (∀ d rows,
       detect_delimiter content = Some d →
       csv_rows d content = Some rows →
       (∀ row cell, row ∈ rows → cell ∈ row → has_chr (ch "@") cell = false) →
       find_emails_in_csv content = Some []).
Proof.
  split; [by apply extract_without_at|].
  split; [|split; [|split]].
  - intros Hsample Hsniff.
    assert (Hd : detect_delimiter content = None).
    { unfold detect_delimiter. rewrite Hsample, Hsniff.
      by apply count_delimiters_none. }
    split; [exact Hd|]. unfold find_emails_in_csv. rewrite Hd.
    by rewrite text_store_without_at, sorted_values_empty.
  - intros Hsample. unfold detect_delimiter. by rewrite Hsample.
  - intros d Hsample Hsniff. unfold detect_delimiter. by rewrite Hsample, Hsniff.
  - intros d rows Hd Hrows Hcells. unfold find_emails_in_csv.
    rewrite Hd, Hrows. destruct rows as [|row rows]; [done|].
    by rewrite csv_store_without_at, sorted_values_empty.
Qed.

Lemma C9_no_delimiter_no_at_witness :
  @detect_delimiter ascii_unicode (plain_csv None) alice_bob = None
  ∧ @find_emails_in_csv ascii_unicode (plain_csv None) alice_bob = Some [].
Proof.
  assert (Hdelim : forallb (λ d, negb (has_chr d alice_bob)) delimiters = true)
    by reflexivity.
  assert (Hat : has_chr (ch "@") alice_bob = false) by reflexivity.
  destruct (@C9_no_delimiter_no_at ascii_unicode (plain_csv None) alice_bob
              Hdelim Hat) as (_ & Htext & _).
  apply Htext; reflexivity.
Defined.

(** ** The shape of an extracted address *)

Lemma consumes_matched c0 w c1 : consumes c0 w c1 → matched c0 c1 = w.
Proof.
  unfold consumes, matched, consumed. intros ->.
  rewrite length_app.
  replace (length w + length (rest c1) - length (rest c1))%nat with (length w) by lia.
  by rewrite take_app_length.
Qed.

Lemma step_Rep_consumes `{Unicode} greedy lo p cur e :
  In e (step (Rep greedy lo p) cur) →
  ∃ w, consumes cur w e ∧ (lo ≤ length w)%nat ∧ Forall (λ c, p c = true) w.
Proof.
  simpl. intros Hin. apply in_map_iff in Hin as (k & <- & Hk).
  apply In_counts in Hk as [Hlo Hrun].
  exists (take k (rest cur)). split; [|split].
  - unfold consumes. by rewrite rest_advance, take_drop.
  - rewrite length_take.
    assert (run p (rest cur) ≤ length (rest cur))%nat; [|lia].
    clear. induction (rest cur) as [|c s IH]; simpl; [lia|].
    destruct (p c); lia.
  - by apply take_run_Forall.
Qed.

Lemma step_lit1_consumes `{Unicode} c cur e :
  In e (step (Seq (Cls (N.eqb c)) Eps) cur) → consumes cur [c] e.
Proof.
  rewrite step_Seq. intros Hin.
  apply in_flat_map in Hin as (mid & Hmid & [<-|[]]).
  simpl in Hmid. unfold consumes.
  destruct (rest cur) as [|x s'] eqn:Hrest; [done|].
  destruct (N.eqb_spec c x) as [->|]; [|done].
  by destruct Hmid as [<-|[]].
Qed.

Lemma step_WordB_same `{Unicode} cur e : In e (step WordB cur) → e = cur.
Proof. simpl. destruct (at_wordb cur); [|done]. by intros [<-|[]]. Qed.

Lemma email_shape_consumes `{Unicode} cur e :
  In e (step email_shape cur) → ∃ w, consumes cur w e ∧ address_shape w.
Proof.
  change email_shape with
    (Seq (Rep true 1 local_chr)
       (Seq (Seq (Cls (N.eqb (ch "@"))) Eps)
          (Seq (Rep true 1 domain_chr)
             (Seq (Seq (Cls (N.eqb (ch "."))) Eps) (Rep true 2 tld_chr))))).
  intros Hin.
  rewrite step_Seq in Hin. apply in_flat_map in Hin as (c1 & H1 & Hin).
  rewrite step_Seq in Hin. apply in_flat_map in Hin as (c2 & H2 & Hin).
  rewrite step_Seq in Hin. apply in_flat_map in Hin as (c3 & H3 & Hin).
  rewrite step_Seq in Hin. apply in_flat_map in Hin as (c4 & H4 & H5).
  apply step_Rep_consumes in H1 as (l & Hl & Hlen & Hlall).
  apply step_lit1_consumes in H2.
  apply step_Rep_consumes in H3 as (d & Hd & Hdlen & Hdall).
  apply step_lit1_consumes in H4.
  apply step_Rep_consumes in H5 as (t & Ht & Htlen & Htall).
  exists (l ++ [ch "@"] ++ d ++ [ch "."] ++ t). split.
  - unfold consumes in *. rewrite Hl, H2, Hd, H4, Ht.
    by rewrite <- !app_assoc.
  - exists l, d, t. repeat split; try done.
    + intros ->. simpl in Hlen. lia.
    + intros ->. simpl in Hdlen. lia.
Qed.

Lemma scan_found (m : cursor → option (str * nat)) skip prev s x :
  x ∈ scan m skip prev s → ∃ cur n, m cur = Some (x, n).
Proof.
  revert skip prev. induction s as [|c s IH]; intros skip prev Hx.
  - destruct skip; simpl in Hx; [|by apply elem_of_nil in Hx].
    destruct (m (Cursor prev [])) as [[found n]|] eqn:Hm;
      [|by apply elem_of_nil in Hx].
    apply list_elem_of_singleton in Hx as ->. eauto.
  - destruct skip; simpl in Hx; [|by eapply IH].
    destruct (m (Cursor prev (c :: s))) as [[found n]|] eqn:Hm; [|by eapply IH].
    apply elem_of_cons in Hx as [->|Hx]; [eauto|by eapply IH].
Qed.

Lemma take_until_label t tail :
  Forall (λ c, tld_chr c = true) t →
  take_until (N.eqb (ch ".")) (t ++ ch "." :: tail) = t.
Proof.
  induction 1 as [|x t Hx Ht IH].
  - reflexivity.
  - rewrite <- app_comm_cons. cbn [take_until].
    destruct (N.eqb_spec (ch ".") x) as [<-|]; [discriminate Hx|].
    by rewrite IH.
Qed.

Lemma extractor_match_shape `{Unicode} (text address : str) :
  address ∈ extract_emails_from_text text →
  address_shape address
  ∧ (2 ≤ length (top_level_label address))%nat
  ∧ Forall (λ c, tld_chr c = true) (top_level_label address).
Proof.
  unfold extract_emails_from_text, findall.
  rewrite elem_of_list_to_set. intros Hin.
  apply scan_found in Hin as (cur & n & Hm).
  unfold whole in Hm.
  destruct (step email_pattern cur) as [|e l] eqn:E; [done|].
  assert (Hin : In e (step email_pattern cur)) by (rewrite E; by left).
  injection Hm as <- _. clear E.
  change email_pattern with (Seq WordB (Seq email_shape WordB)) in Hin.
  rewrite step_Seq in Hin. apply in_flat_map in Hin as (c1 & H1 & Hin).
  apply step_WordB_same in H1 as ->.
  rewrite step_Seq in Hin. apply in_flat_map in Hin as (c2 & H2 & H3).
  apply step_WordB_same in H3 as ->.
  apply email_shape_consumes in H2 as (w & Hw & Hshape).
  rewrite (consumes_matched _ _ _ Hw).
  split; [exact Hshape|].
  destruct Hshape as (lp & d & t & -> & _ & _ & _ & _ & Hlen & Hall).
  assert (Hlabel : top_level_label (lp ++ [ch "@"] ++ d ++ [ch "."] ++ t) = t).
  { unfold top_level_label.
    replace (lp ++ [ch "@"] ++ d ++ [ch "."] ++ t)
      with ((lp ++ [ch "@"] ++ d) ++ ch "." :: t) by (by rewrite <- !app_assoc).
    rewrite reverse_app, reverse_cons, <- app_assoc. simpl.
    rewrite take_until_label by (by apply Forall_reverse).
    apply reverse_involutive. }
  by rewrite Hlabel.
Qed.

(** Every address the extractor returns is a local part of
    [[A-Za-z0-9._%+-]], [@], a domain of [[A-Za-z0-9.-]], [.], and a
    label of two or more characters of [[A-Z|a-z]]; the label is the
    text after the final [.] of the address. *)
Theorem extracted_address_shape `{Unicode} (text address : str) :
  address ∈ extract_emails_from_text text →
  address_shape address
  ∧ (2 ≤ length (top_level_label address))%nat
  ∧ Forall (λ c, tld_chr c = true) (top_level_label address).
Proof. apply extractor_match_shape. Qed.

Lemma extracted_address_shape_witness :
  address_shape (py "x@y.a|b").
Proof.
  apply (@extracted_address_shape ascii_unicode pipe_text (py "x@y.a|b")).
  by vm_compute.
Defined.

(** ** The header row the ingester keeps *)

Lemma find_index_None {A} (p : A → bool) l :
  find_index p l = None ↔ existsb p l = false.
Proof.
  induction l as [|x l IH]; simpl; [done|].
  destruct (p x); simpl; [done|].
  destruct (find_index p l); simpl; [|tauto].
  split; [done|]. intros Hl. apply IH in Hl. done.
Qed.

Lemma note_mail_columns i cells k c :
  let c' := foldl (note_mail_column i) c (imap (λ j, pair (k + j)%nat) cells) in
  first_name_col c' = first_name_col c
  ∧ last_name_col c' = last_name_col c
  ∧ (∀ h, header_row c = Some h → header_row c' = Some h)
  ∧ (header_row c = None → email_cols c = [] →
     header_row c' = (if existsb is_mail cells then Some i else None)
     ∧ (existsb is_mail cells = false → email_cols c' = [])).
Proof.
  revert k c. induction cells as [|cell cells IH]; intros k c.
  - simpl. repeat split; done.
  - cbv zeta. rewrite imap_cons. cbn [foldl].
    rewrite (imap_ext _ (λ j, pair (S k + j)%nat)) by (intros; simpl; f_equal; lia).
    set (c1 := note_mail_column i c ((k + 0)%nat, cell)).
    destruct (IH (S k) c1) as (Hf & Hl & Hh & Hm).
    assert (Hc1 : first_name_col c1 = first_name_col c
                  ∧ last_name_col c1 = last_name_col c
                  ∧ (∀ h, header_row c = Some h → header_row c1 = Some h)).
    { unfold c1, note_mail_column. destruct (_ && _); simpl; [|done].
      repeat split. by intros h ->. }
    destruct Hc1 as (Hf1 & Hl1 & Hh1).
    split; [congruence|]. split; [congruence|]. split; [by auto|].
    intros Hnone Hcols. cbn [existsb].
    assert (Hc1' : if is_mail cell then header_row c1 = Some i
                   else header_row c1 = None ∧ email_cols c1 = []).
    { unfold c1, note_mail_column. rewrite Hcols, Hnone.
      destruct (is_mail cell); simpl; done. }
    destruct (is_mail cell); simpl.
    + split; [by apply Hh|done].
    + destruct Hc1' as [Hn1 He1]. by apply Hm.
Qed.

Lemma existsb_any3 {A} (p q r : A → bool) l :
  existsb (λ x, p x || q x || r x) l = existsb p l || existsb q l || existsb r l.
Proof.
  induction l as [|x l IH]; simpl; [done|]. rewrite IH.
  destruct (p x), (q x), (r x), (existsb p l), (existsb q l); done.
Qed.

Lemma find_index_Some_existsb {A} (p : A → bool) l j :
  find_index p l = Some j → existsb p l = true.
Proof.
  intros Hj. destruct (existsb p l) eqn:E; [done|].
  apply find_index_None in E. congruence.
Qed.

Lemma existsb_find_index {A} (p : A → bool) l :
  existsb p l = match find_index p l with Some _ => true | None => false end.
Proof.
  destruct (find_index p l) eqn:E; [by eapply find_index_Some_existsb|].
  by apply find_index_None.
Qed.

Lemma scan_header_row_spec `{Unicode} ctx i row :
  nothing_found_yet ctx →
  let ctx' := scan_header_row ctx i row in
  nothing_found_yet ctx'
  ∧ (first_name_col ctx ≠ None →
     first_name_col ctx' ≠ None ∧ header_row ctx' = header_row ctx)
  ∧ (first_name_col ctx = None → names_first row = true →
     first_name_col ctx' ≠ None ∧ header_row ctx' = Some i)
  ∧ (first_name_col ctx = None → names_first row = false →
     first_name_col ctx' = None
     ∧ header_row ctx' = match header_row ctx with
                         | Some h => Some h
                         | None => if fires row then Some i else None
                         end).
Proof.
  intros Hctx. unfold scan_header_row, names_first, fires, nothing_found_yet.
  fold (lowered row). rewrite existsb_any3.
  set (ctx1 := match first_name_col ctx with None => _ | Some _ => ctx end).
  set (ctx2 := match last_name_col ctx1 with None => _ | Some _ => ctx1 end).
  pose proof (note_mail_columns i (lowered row) 0 ctx2) as Hmail.
  change (imap (λ j, pair (0 + j)%nat) (lowered row)) with (imap pair (lowered row)) in Hmail.
  cbv zeta in Hmail. cbv zeta.
  set (ctx3 := foldl (note_mail_column i) ctx2 (imap pair (lowered row))) in *.
  destruct Hmail as (Hf & Hl & Hh & Hm).
  rewrite Hf, Hl.
  rewrite (existsb_find_index is_first_name), (existsb_find_index is_last_name).
  clearbody ctx3.
  destruct ctx as [h f l m]. unfold nothing_found_yet in Hctx. simpl in Hctx.
  subst ctx1 ctx2.
  destruct (find_index is_first_name (lowered row)) as [jf|];
  destruct (find_index is_last_name (lowered row)) as [jl|];
  destruct f as [f|]; destruct l as [l|]; destruct h as [h|];
  try (destruct Hctx as (? & ? & ?); [done|]; simplify_eq);
  simpl in *;
  try (specialize (Hh _ eq_refl));
  try (specialize (Hm eq_refl eq_refl); destruct Hm as [Hm Hcols]);
  rewrite ?Hf, ?Hh, ?Hl, ?Hm; simpl;
  repeat split; try done.
  all: try (intros; simplify_eq; done).
  apply Hcols. by destruct (existsb is_mail (lowered row)).
Qed.

Lemma scan_header_from_cons `{Unicode} ctx k row rows :
  scan_header_from ctx k (row :: rows)
  = scan_header_from (scan_header_row ctx k row) (S k) rows.
Proof.
  unfold scan_header_from. rewrite imap_cons. cbn [foldl].
  rewrite (imap_ext _ (λ i, pair (S k + i)%nat)) by (intros; simpl; f_equal; lia).
  by rewrite Nat.add_0_r.
Qed.

Lemma scan_header_from_spec `{Unicode} rows ctx k :
  nothing_found_yet ctx →
  header_row (scan_header_from ctx k rows)
  = match first_name_col ctx with
    | Some _ => header_row ctx
    | None =>
        match find_index names_first rows with
        | Some i => Some (k + i)%nat
        | None =>
            match header_row ctx with
            | Some h => Some h
            | None => (λ i, (k + i)%nat) <$> find_index fires rows
            end
        end
    end.
Proof.
  revert ctx k. induction rows as [|row rows IH]; intros ctx k Hctx.
  - unfold scan_header_from. simpl.
    destruct (first_name_col ctx); [done|]. by destruct (header_row ctx).
  - rewrite scan_header_from_cons.
    destruct (scan_header_row_spec ctx k row Hctx) as (Hctx' & Hknown & Hfound & Hnot).
    rewrite (IH _ _ Hctx'). cbn [find_index].
    destruct (first_name_col ctx) as [f|] eqn:Hf.
    + destruct Hknown as [Hf' Hh']; [done|].
      destruct (first_name_col (scan_header_row ctx k row)); [done|]. done.
    + destruct (names_first row) eqn:Hrow.
      * destruct (Hfound eq_refl eq_refl) as [Hf' Hh'].
        destruct (first_name_col (scan_header_row ctx k row)); [|done].
        rewrite Hh'. f_equal. lia.
      * destruct (Hnot eq_refl eq_refl) as [Hf' Hh']. rewrite Hf', Hh'.
        destruct (find_index names_first rows) as [j|]; simpl.
        { f_equal. lia. }
        destruct (header_row ctx) as [h|]; [done|].
        destruct (fires row); simpl.
        { f_equal. lia. }
        destruct (find_index fires rows); simpl; [|done]. f_equal. lia.
Qed.

Lemma detect_header_keeps `{Unicode} (rows : list (list str)) :
  header_row (detect_header rows)
  = match first_name_row rows with
    | Some i => Some i
    | None => first_signal_row rows
    end.
Proof.
  change (detect_header rows)
    with (scan_header_from (mkRowContext None None None []) 0 (take 5 rows)).
  rewrite scan_header_from_spec by done. simpl.
  unfold first_name_row, first_signal_row.
  destruct (find_index names_first (take 5 rows)); [done|].
  by destruct (find_index fires (take 5 rows)).
Qed.

(** The header row the ingester keeps is the first of the first five
    rows that names a first-name column, when there is one; without one
    it is the first of these rows at which a detection fires. *)
Theorem header_row_of_detect_header `{Unicode} (rows : list (list str)) :
  header_row (detect_header rows)
  = match first_name_row rows with
    | Some i => Some i
    | None => first_signal_row rows
    end.
Proof. apply detect_header_keeps. Qed.

(** ** The sorted output does not depend on the order of the values *)

Lemma str_leb_total a b : str_leb a b = true ∨ str_leb b a = true.
Proof.
  revert b. induction a as [|x a IH]; intros [|y b]; simpl; auto.
  destruct (N.ltb_spec x y), (N.ltb_spec y x), (N.eqb_spec x y), (N.eqb_spec y x);
    simpl; auto; try lia.
Qed.

Lemma str_leb_antisym a b : str_leb a b = true → str_leb b a = true → a = b.
Proof.
  revert b. induction a as [|x a IH]; intros [|y b]; simpl; try done.
  destruct (N.ltb_spec x y), (N.ltb_spec y x), (N.eqb_spec x y), (N.eqb_spec y x);
    simpl; try done; try lia.
  intros Hab Hba. subst. f_equal. by apply IH.
Qed.

Lemma str_leb_trans a b c :
  str_leb a b = true → str_leb b c = true → str_leb a c = true.
Proof.
  revert b c. induction a as [|x a IH]; intros [|y b] [|z c]; simpl; try done.
  destruct (N.ltb_spec x y), (N.ltb_spec y z), (N.ltb_spec x z),
    (N.eqb_spec x y), (N.eqb_spec y z), (N.eqb_spec x z);
    simpl; try done; try lia.
  apply IH.
Qed.

Lemma by_email_trans : Transitive by_email.
Proof. intros r1 r2 r3. apply str_leb_trans. Qed.

Lemma insert_by_email_Sorted r l :
  Sorted by_email l → Sorted by_email (insert_by_email r l).
Proof.
  induction 1 as [|x l Hl IH Hhd]; simpl.
  - by repeat constructor.
  - unfold str_ltb. destruct (str_leb (email r) (email x)) eqn:Hrx; simpl.
    + constructor; [by constructor|]. by constructor.
    + constructor; [exact IH|].
      assert (Hxr : by_email x r).
      { destruct (str_leb_total (email x) (email r)); [done|congruence]. }
      destruct Hhd as [|y l Hxy]; simpl; [by constructor|].
      destruct (str_ltb (email y) (email r)); by constructor.
Qed.

Lemma sorted_by_email_Sorted l : Sorted by_email (sorted_by_email l).
Proof.
  induction l as [|r l IH]; simpl; [constructor|].
  by apply insert_by_email_Sorted.
Qed.

(** Lists with the same records, each e-mail once, sort to the same
    list; the list is in ascending order of e-mail. *)
Lemma sorted_by_email_order_free l1 l2 :
  l1 ≡ₚ l2 → NoDup (email <$> l1) → sorted_by_email l1 = sorted_by_email l2.
Proof.
  intros Hperm Hnd.
  apply (@Sorted_unique_strong _ by_email by_email_trans);
    try apply sorted_by_email_Sorted.
  - intros r1 r2 Hr1 Hr2 H12 H21.
    rewrite sorted_by_email_Permutation in Hr1.
    rewrite sorted_by_email_Permutation, <- Hperm in Hr2.
    pose proof (str_leb_antisym _ _ H12 H21) as Heq.
    apply list_elem_of_lookup in Hr1 as [i Hi].
    apply list_elem_of_lookup in Hr2 as [j Hj].
    assert (i = j) as ->.
    { eapply NoDup_lookup; [exact Hnd| |].
      - by rewrite list_lookup_fmap, Hi.
      - rewrite list_lookup_fmap, Hj. simpl. by rewrite Heq. }
    congruence.
  - by rewrite !sorted_by_email_Permutation.
Qed.

(** The list an ingester returns is in ascending order of e-mail, and
    it is the one list the values of the store sort to, in whatever
    order the store yields them. *)
Theorem sorted_values_order_free (email_records : gmap str EmailRecord)
    (values : list EmailRecord) :
  keyed email_records →
  values ≡ₚ (map_to_list email_records).*2 →
  Sorted by_email (sorted_values email_records)
  ∧ sorted_by_email values = sorted_values email_records.
Proof.
  intros Hkeyed Hperm. split; [apply sorted_by_email_Sorted|].
  apply sorted_by_email_order_free; [done|].
  rewrite Hperm.
  assert (Hk : email <$> (map_to_list email_records).*2 = (map_to_list email_records).*1).
  { rewrite <- list_fmap_compose. apply Forall_fmap_ext_1.
    apply Forall_forall. intros [k r] Hkr. simpl.
    apply elem_of_map_to_list in Hkr. by apply Hkeyed. }
  rewrite Hk. apply NoDup_fst_map_to_list.
Qed.

Lemma sorted_values_order_free_witness :
  sorted_values (@vcf_store ascii_unicode three_address_vcf)
  = mkEmailRecord (py "John") (py "Doe") <$> three_addresses
  ∧ Sorted by_email (sorted_values (@vcf_store ascii_unicode three_address_vcf))
  ∧ sorted_by_email (mkEmailRecord (py "John") (py "Doe")
                       <$> [py "jane@example.com"; py "anna@example.com";
                            py "john@example.com"])
    = sorted_values (@vcf_store ascii_unicode three_address_vcf).
Proof.
  split; [vm_compute; reflexivity|].
  apply (sorted_values_order_free (@vcf_store ascii_unicode three_address_vcf)).
  - apply keyed_vcf_store.
  - assert (Hlisted : (map_to_list (@vcf_store ascii_unicode three_address_vcf)).*2
                      = mkEmailRecord (py "John") (py "Doe")
                          <$> [py "john@example.com"; py "jane@example.com";
                               py "anna@example.com"])
      by (vm_compute; reflexivity).
    rewrite Hlisted. symmetry.
    exact (Permutation_cons_append
             (mkEmailRecord (py "John") (py "Doe")
                <$> [py "jane@example.com"; py "anna@example.com"])
             (mkEmailRecord (py "John") (py "Doe") (py "john@example.com"))).
Defined.

(** ** The e-mails of a store *)

Lemma upsert_dom f l e m : dom (upsert f l e m) = {[ e ]} ∪ dom m.
Proof. unfold upsert. destruct (m !! e); apply dom_insert_L. Qed.

Lemma upsert_all_dom f l emails m e :
  e ∈ dom (upsert_all f l emails m) ↔ e ∈ dom m ∨ e ∈ emails.
Proof.
  unfold upsert_all. revert m.
  induction emails as [|x emails IH]; intros m; simpl.
  - rewrite elem_of_nil. tauto.
  - rewrite IH, upsert_dom, elem_of_union, elem_of_singleton, elem_of_cons. tauto.
Qed.

Lemma sorted_values_emails m e :
  keyed m → e ∈ email <$> sorted_values m ↔ e ∈ dom m.
Proof.
  intros Hm. unfold sorted_values. rewrite sorted_by_email_Permutation.
  rewrite elem_of_dom, list_elem_of_fmap. split.
  - intros (r & -> & Hr). apply list_elem_of_fmap in Hr as ([k r'] & -> & Hkr).
    apply elem_of_map_to_list in Hkr. simpl. rewrite (Hm _ _ Hkr). eauto.
  - intros [r Hr]. exists r. split; [by rewrite (Hm _ _ Hr)|].
    apply list_elem_of_fmap. exists (e, r). split; [done|].
    by apply elem_of_map_to_list.
Qed.

Lemma sorted_values_records m r :
  r ∈ sorted_values m → ∃ k, m !! k = Some r.
Proof.
  unfold sorted_values. rewrite sorted_by_email_Permutation.
  intros Hr. apply list_elem_of_fmap in Hr as ([k r'] & -> & Hkr).
  apply elem_of_map_to_list in Hkr. eauto.
Qed.

(** ** What the rows of a file contribute *)

Lemma foldl_union_elem {A} (cond : A → bool) (X : A → gset (list N)) l acc e :
  e ∈ foldl (λ found x, if cond x then found ∪ X x else found) acc l
  ↔ e ∈ acc ∨ ∃ x, x ∈ l ∧ cond x = true ∧ e ∈ X x.
Proof.
  revert acc. induction l as [|x l IH]; intros acc; simpl.
  - split; [auto|]. intros [?|(x & Hx & _)]; [done|]. by apply elem_of_nil in Hx.
  - rewrite IH. split.
    + intros [Hacc|(y & Hy & Hc & He)].
      * destruct (cond x) eqn:Hc; [|auto].
        apply elem_of_union in Hacc as [?|?]; [auto|].
        right. exists x. split; [by left|done].
      * right. exists y. split; [by right|done].
    + intros [Hacc|(y & Hy & Hc & He)].
      * left. destruct (cond x); [|done]. apply elem_of_union. auto.
      * apply elem_of_cons in Hy as [->|Hy].
        -- left. rewrite Hc. apply elem_of_union. auto.
        -- right. eauto.
Qed.

Lemma found_emails_from_cell `{Unicode} ctx row e :
  e ∈ found_emails ctx row →
  ∃ cell, cell ∈ row ∧ e ∈ extract_emails_from_text cell.
Proof.
  unfold found_emails. rewrite elem_of_union. intros [Hcols|Hcells].
  - revert Hcols. generalize (email_cols ctx). intros cols.
    assert (Hgen : ∀ acc, e ∈ foldl (λ found email_col,
                match row !! email_col with
                | Some cell => if nonempty (strip cell)
                               then found ∪ extract_emails_from_text cell else found
                | None => found
                end) acc cols →
              e ∈ acc ∨ ∃ cell, cell ∈ row ∧ e ∈ extract_emails_from_text cell).
    { induction cols as [|j cols IH]; intros acc; simpl; [auto|].
      intros Hin. apply IH in Hin as [Hin|?]; [|auto].
      destruct (row !! j) as [cell|] eqn:Hj; [|auto].
      destruct (nonempty (strip cell)); [|auto].
      apply elem_of_union in Hin as [?|?]; [auto|].
      right. exists cell. split; [by eapply list_elem_of_lookup_2|done]. }
    intros Hin. apply Hgen in Hin as [Hin|?]; [|done].
    by apply elem_of_empty in Hin.
  - apply (foldl_union_elem (λ cell, nonempty cell && nonempty (strip cell))
             extract_emails_from_text) in Hcells as [Hin|(cell & Hc & _ & He)].
    + by apply elem_of_empty in Hin.
    + eauto.
Qed.

Lemma lstrip_by_keeps p s c : c ∈ s → p c = false → lstrip_by p s ≠ [].
Proof.
  induction s as [|x s IH]; intros Hc Hp; [by apply elem_of_nil in Hc|].
  simpl. destruct (p x) eqn:Hx; [|done].
  apply elem_of_cons in Hc as [->|Hc]; [congruence|]. by apply IH.
Qed.

Lemma lstrip_by_suffix p s : lstrip_by p s `suffix_of` s.
Proof.
  induction s as [|x s IH]; simpl; [done|].
  destruct (p x); [by apply suffix_cons_r|done].
Qed.

Lemma strip_keeps `{Unicode} s c :
  c ∈ s → chr_isspace c = false → nonempty (strip s) = true.
Proof.
  intros Hc Hp. apply nonempty_true. unfold strip, rstrip_by.
  assert (Hl : lstrip_by chr_isspace s ≠ []) by by eapply lstrip_by_keeps.
  assert (Hc' : c ∈ lstrip_by chr_isspace s).
  { clear Hl. induction s as [|x s IH]; [done|]. simpl.
    destruct (chr_isspace x) eqn:Hx; [|done].
    apply elem_of_cons in Hc as [->|Hc]; [congruence|]. by apply IH. }
  intros Hnil. apply (f_equal (@rev _)) in Hnil. rewrite rev_involutive in Hnil.
  simpl in Hnil. revert Hnil. apply (lstrip_by_keeps _ _ c); [|done].
  apply list_elem_of_In. rewrite <- in_rev. by apply list_elem_of_In.
Qed.

Lemma extracted_has_at `{Unicode} text e :
  e ∈ extract_emails_from_text text → ch "@" ∈ text.
Proof.
  intros He. destruct (has_chr (ch "@") text) eqn:Hat.
  - by apply list_elem_of_In, has_chr_In.
  - rewrite (extract_without_at _ Hat) in He. by apply elem_of_empty in He.
Qed.

Lemma found_emails_of_cell `{Unicode} ctx row cell e :
  chr_isspace (ch "@") = false →
  cell ∈ row → e ∈ extract_emails_from_text cell → e ∈ found_emails ctx row.
Proof.
  intros Hsp Hcell He. unfold found_emails. apply elem_of_union. right.
  apply (foldl_union_elem (λ cell, nonempty cell && nonempty (strip cell))
           extract_emails_from_text). right.
  exists cell. split; [done|]. split; [|done].
  pose proof (extracted_has_at _ _ He) as Hat.
  rewrite (strip_keeps cell (ch "@")) by done.
  destruct cell; [by apply elem_of_nil in Hat|done].
Qed.

Lemma process_rows_dom `{Unicode} ctx rows m e :
  e ∈ dom (foldl (process_row ctx) m rows)
  ↔ e ∈ dom m ∨ ∃ row, row ∈ rows ∧ e ∈ found_emails ctx row.
Proof.
  revert m. induction rows as [|row rows IH]; intros m; simpl.
  - split; [auto|]. intros [?|(x & Hx & _)]; [done|]. by apply elem_of_nil in Hx.
  - rewrite IH.
    assert (Hrow : e ∈ dom (process_row ctx m row)
                   ↔ e ∈ dom m ∨ e ∈ found_emails ctx row).
    { unfold process_row. by rewrite upsert_all_dom, elem_of_elements. }
    rewrite Hrow. split.
    + intros [[?|?]|(r & Hr & He)]; [auto| |].
      * right. exists row. split; [by left|done].
      * right. exists r. split; [by right|done].
    + intros [?|(r & Hr & He)]; [auto|].
      apply elem_of_cons in Hr as [->|Hr]; [auto|]. right. eauto.
Qed.

Lemma find_emails_in_csv_rows `{Unicode} `{CsvModule} content d rows :
  detect_delimiter content = Some d →
  csv_rows d content = Some rows →
  find_emails_in_csv content = Some (sorted_values (csv_store rows)).
Proof.
  intros Hd Hrows. unfold find_emails_in_csv. rewrite Hd, Hrows.
  destruct rows as [|row rows]; [|done].
  change (csv_store []) with (∅ : gmap (list N) EmailRecord).
  by rewrite sorted_values_empty.
Qed.

Lemma csv_store_dom `{Unicode} rows e :
  e ∈ dom (csv_store rows)
  ↔ ∃ row, row ∈ drop (start_row (detect_header rows)) rows
           ∧ e ∈ found_emails (detect_header rows) row.
Proof.
  unfold csv_store. simpl. rewrite process_rows_dom, dom_empty_L.
  split; [|auto]. intros [Hin|?]; [|done]. by apply elem_of_empty in Hin.
Qed.

(** Every cell of every data row is scanned: the e-mails of the records
    the CSV ingester returns are the addresses the extractor finds in
    the cells of the rows after the header row, no more and no less. *)
Theorem csv_records_are_the_addresses_of_the_data_rows `{Unicode} `{CsvModule}
    (content : str) (d : char) (rows : list (list str))
    (Hspace : chr_isspace (ch "@") = false)
    (Hd : detect_delimiter content = Some d)
    (Hrows : csv_rows d content = Some rows) :
  ∃ records,
    find_emails_in_csv content = Some records
    ∧ ∀ e, e ∈ email <$> records
           ↔ ∃ row cell, row ∈ drop (start_row (detect_header rows)) rows
                         ∧ cell ∈ row ∧ e ∈ extract_emails_from_text cell.
Proof.
  exists (sorted_values (csv_store rows)).
  split; [by apply (find_emails_in_csv_rows content d)|].
  intros e. rewrite sorted_values_emails by apply keyed_csv_store.
  rewrite csv_store_dom. split.
  - intros (row & Hrow & He).
    apply found_emails_from_cell in He as (cell & Hcell & He). eauto.
  - intros (row & cell & Hrow & Hcell & He). exists row. split; [done|].
    by eapply found_emails_of_cell.
Qed.

Lemma csv_records_are_the_addresses_of_the_data_rows_witness :
  ∃ records,
    @find_emails_in_csv ascii_unicode (plain_csv (Some (ch ","))) late_first_name_csv
    = Some records
    ∧ ∀ e, e ∈ email <$> records
           ↔ ∃ row cell,
               row ∈ drop (start_row (@detect_header ascii_unicode late_first_name_rows))
                          late_first_name_rows
               ∧ cell ∈ row ∧ e ∈ @extract_emails_from_text ascii_unicode cell.
Proof.
  apply (@csv_records_are_the_addresses_of_the_data_rows ascii_unicode
           (plain_csv (Some (ch ","))) late_first_name_csv (ch ","));
    reflexivity.
Defined.

(** ** The order of the records *)

Lemma StronglySorted_ascending l :
  StronglySorted by_email l → NoDup (email <$> l) → StronglySorted ascending l.
Proof.
  induction 1 as [|x l Hl IH Hx]; intros Hnd; [constructor|].
  rewrite fmap_cons in Hnd. apply NoDup_cons in Hnd as [Hx' Hnd].
  constructor; [by apply IH|].
  apply Forall_forall. intros y Hy.
  rewrite Forall_forall in Hx. specialize (Hx _ Hy).
  unfold ascending, str_ltb. apply negb_true_iff.
  destruct (str_leb (email y) (email x)) eqn:Hyx; [|done].
  exfalso. apply Hx'. rewrite (str_leb_antisym _ _ Hx Hyx).
  by apply list_elem_of_fmap_2.
Qed.

Lemma sorted_values_ascending m :
  keyed m → StronglySorted ascending (sorted_values m).
Proof.
  intros Hm. apply StronglySorted_ascending; [|by apply sorted_values_NoDup].
  apply (@Sorted_StronglySorted _ by_email by_email_trans).
  apply sorted_by_email_Sorted.
Qed.

(** The list the VCF ingester returns, and the list the CSV ingester
    returns when it returns one, are in strictly ascending order of
    e-mail, code point by code point. *)
Theorem ingesters_return_ascending_emails `{Unicode} `{CsvModule} (content : str)
    (records : list EmailRecord)
    (Hcsv : find_emails_in_csv content = Some records) :
  StronglySorted ascending records
  ∧ StronglySorted ascending (parse_vcf_file content).
Proof.
  split; [|apply sorted_values_ascending, keyed_vcf_store].
  unfold find_emails_in_csv in Hcsv.
  destruct (detect_delimiter content) as [d|].
  - destruct (csv_rows d content) as [[|row rows]|]; simplify_eq.
    + constructor.
    + apply sorted_values_ascending, keyed_csv_store.
  - simplify_eq. apply sorted_values_ascending, keyed_text_store.
Qed.

Lemma ingesters_return_ascending_emails_witness :
  length (@parse_vcf_file ascii_unicode three_address_vcf) = 3%nat
  ∧ StronglySorted ascending (mkEmailRecord [] [] <$> three_addresses)
  ∧ StronglySorted ascending (@parse_vcf_file ascii_unicode three_address_vcf).
Proof.
  split; [vm_compute; reflexivity|].
  apply (@ingesters_return_ascending_emails ascii_unicode (plain_csv (Some (ch ":")))
           three_address_vcf).
  vm_compute. reflexivity.
Defined.

(** ** Records without names *)

Lemma merge_names_nothing r : merge_names [] [] r = r.
Proof. unfold merge_names. by rewrite !andb_false_r. Qed.

Lemma nameless_upsert e m :
  (∀ k r, m !! k = Some r → nameless r) →
  ∀ k r, upsert [] [] e m !! k = Some r → nameless r.
Proof.
  intros Hm k r. unfold upsert. destruct (m !! e) as [existing|] eqn:He.
  - rewrite merge_names_nothing, lookup_insert. case_decide; simplify_eq.
    + intros [= <-]. by eapply Hm.
    + apply Hm.
  - rewrite lookup_insert. case_decide; simplify_eq.
    + by intros [= <-].
    + apply Hm.
Qed.

Lemma nameless_upsert_all emails m :
  (∀ k r, m !! k = Some r → nameless r) →
  ∀ k r, upsert_all [] [] emails m !! k = Some r → nameless r.
Proof.
  unfold upsert_all. revert m.
  induction emails as [|e emails IH]; intros m Hm; simpl; [done|].
  apply IH. by apply nameless_upsert.
Qed.

Lemma nameless_sorted_values m :
  (∀ k r, m !! k = Some r → nameless r) → Forall nameless (sorted_values m).
Proof.
  intros Hm. apply Forall_forall. intros r Hr.
  apply sorted_values_records in Hr as [k Hk]. by eapply Hm.
Qed.

Lemma insert_absent_spec (emails : list (list N)) (m : gmap (list N) EmailRecord) :
  (∀ k r, m !! k = Some r → nameless r) →
  let m' := foldl (λ email_records email',
                     match email_records !! email' with
                     | None => <[email' := mkEmailRecord [] [] email']> email_records
                     | Some _ => email_records
                     end) m emails in
  (∀ k r, m' !! k = Some r → nameless r)
  ∧ ∀ e, e ∈ dom m' ↔ e ∈ dom m ∨ e ∈ emails.
Proof.
  revert m. induction emails as [|x emails IH]; intros m Hm; simpl.
  - split; [done|]. intros e. rewrite elem_of_nil. tauto.
  - destruct (m !! x) as [r|] eqn:Hx.
    + destruct (IH m Hm) as [Hn Hdom]. split; [done|].
      intros e. rewrite Hdom, elem_of_cons. split; [tauto|].
      intros [?|[->|?]]; [tauto| |tauto]. left. apply elem_of_dom. eauto.
    + destruct (IH (<[x:=mkEmailRecord [] [] x]> m)) as [Hn Hdom].
      { intros k r. rewrite lookup_insert. case_decide; simplify_eq.
        - by intros [= <-].
        - apply Hm. }
      split; [done|]. intros e.
      rewrite Hdom, dom_insert_L, elem_of_union, elem_of_singleton, elem_of_cons.
      tauto.
Qed.

Lemma text_store_spec `{Unicode} content :
  (∀ k r, text_store content !! k = Some r → nameless r)
  ∧ ∀ e, e ∈ dom (text_store content) ↔ e ∈ extract_emails_from_text content.
Proof.
  unfold text_store.
  destruct (insert_absent_spec (elements (extract_emails_from_text content)) ∅)
    as [Hn Hdom].
  { intros k r. by rewrite lookup_empty. }
  split; [done|]. intros e. rewrite Hdom, dom_empty_L, elem_of_elements.
  split; [|auto]. intros [Hin|?]; [|done]. by apply elem_of_empty in Hin.
Qed.

(** A file without a delimiter is plain text: its records are the
    addresses the extractor finds in the whole text, each without a
    first and a last name. *)
Theorem plain_text_file_records `{Unicode} `{CsvModule} (content : str)
    (Hplain : detect_delimiter content = None) :
  ∃ records,
    find_emails_in_csv content = Some records
    ∧ Forall nameless records
    ∧ ∀ e, e ∈ email <$> records ↔ e ∈ extract_emails_from_text content.
Proof.
  exists (sorted_values (text_store content)).
  destruct (text_store_spec content) as [Hn Hdom].
  split; [|split].
  - unfold find_emails_in_csv. by rewrite Hplain.
  - by apply nameless_sorted_values.
  - intros e. rewrite sorted_values_emails by apply keyed_text_store.
    by rewrite Hdom.
Qed.

Lemma plain_text_file_records_witness :
  @find_emails_in_csv ascii_unicode (plain_csv None) contacts_text
  = Some (mkEmailRecord [] [] <$> [py "alice@example.com"; py "bob@example.org"])
  ∧ Forall nameless
      (mkEmailRecord [] [] <$> [py "alice@example.com"; py "bob@example.org"])
  ∧ ∀ e, e ∈ email <$> (mkEmailRecord [] []
                          <$> [py "alice@example.com"; py "bob@example.org"])
         ↔ e ∈ @extract_emails_from_text ascii_unicode contacts_text.
Proof.
  assert (Hplain : @detect_delimiter ascii_unicode (plain_csv None) contacts_text = None)
    by (vm_compute; reflexivity).
  destruct (@plain_text_file_records ascii_unicode (plain_csv None) contacts_text Hplain)
    as (records & Hfind & Hrecords).
  assert (Hfound : @find_emails_in_csv ascii_unicode (plain_csv None) contacts_text
                   = Some (mkEmailRecord [] []
                             <$> [py "alice@example.com"; py "bob@example.org"]))
    by (vm_compute; reflexivity).
  rewrite Hfound in Hfind. injection Hfind as <-.
  split; [exact Hfound|exact Hrecords].
Defined.

Lemma scan_header_from_keeps `{Unicode} rows ctx k :
  nothing_found_yet ctx → nothing_found_yet (scan_header_from ctx k rows).
Proof.
  revert ctx k. induction rows as [|row rows IH]; intros ctx k Hctx; [done|].
  rewrite scan_header_from_cons. apply IH.
  by destruct (scan_header_row_spec ctx k row Hctx) as [Hctx' _].
Qed.

Lemma names_first_fires `{Unicode} row : names_first row = true → fires row = true.
Proof.
  unfold names_first, fires. fold (lowered row). rewrite existsb_any3.
  by intros ->.
Qed.

Lemma no_signal_no_first_name `{Unicode} rows :
  find_index fires rows = None → find_index names_first rows = None.
Proof.
  rewrite !find_index_None. induction rows as [|row rows IH]; simpl; [done|].
  rewrite !orb_false_iff. intros [Hrow Hrows]. split; [|by apply IH].
  destruct (names_first row) eqn:E; [|done].
  by rewrite (names_first_fires row E) in Hrow.
Qed.

Lemma csv_store_nameless `{Unicode} rows :
  first_name_col (detect_header rows) = None →
  last_name_col (detect_header rows) = None →
  ∀ k r, csv_store rows !! k = Some r → nameless r.
Proof.
  intros Hf Hl. unfold csv_store. simpl.
  generalize (drop (start_row (detect_header rows)) rows). intros data.
  assert (Hgen : ∀ m : gmap (list N) EmailRecord,
            (∀ k r, m !! k = Some r → nameless r) →
            ∀ k r, foldl (process_row (detect_header rows)) m data !! k = Some r →
                   nameless r).
  { induction data as [|row data IH]; intros m Hm; simpl; [done|].
    apply IH. unfold process_row. rewrite Hf, Hl. simpl.
    by apply nameless_upsert_all. }
  apply Hgen. intros k r. by rewrite lookup_empty.
Qed.

(** When no cell of the first five rows names a first-name, a last-name
    or an e-mail column, no row is taken for a header: the data start at
    row 0 and every record is without names. *)
Theorem headerless_csv_has_no_names `{Unicode} `{CsvModule}
    (content : str) (d : char) (rows : list (list str))
    (Hd : detect_delimiter content = Some d)
    (Hrows : csv_rows d content = Some rows)
    (Hnone : first_signal_row rows = None) :
  header_row (detect_header rows) = None
  ∧ start_row (detect_header rows) = 0%nat
  ∧ ∃ records, find_emails_in_csv content = Some records
               ∧ Forall nameless records.
Proof.
  assert (Hh : header_row (detect_header rows) = None).
  { rewrite detect_header_keeps. unfold first_name_row.
    unfold first_signal_row in Hnone.
    by rewrite (no_signal_no_first_name _ Hnone). }
  assert (Hinv : nothing_found_yet (detect_header rows)).
  { change (detect_header rows)
      with (scan_header_from (mkRowContext None None None []) 0 (take 5 rows)).
    by apply scan_header_from_keeps. }
  destruct (Hinv Hh) as (Hf & Hl & _).
  split; [done|]. split; [unfold start_row; by rewrite Hh|].
  exists (sorted_values (csv_store rows)).
  split; [by apply (find_emails_in_csv_rows content d)|].
  by apply nameless_sorted_values, csv_store_nameless.
Qed.

Lemma headerless_csv_has_no_names_witness :
  ∃ records,
    @find_emails_in_csv ascii_unicode (plain_csv (Some (ch ","))) (py "b,c@d.ee")
    = Some records
    ∧ Forall nameless records.
Proof.
  apply (@headerless_csv_has_no_names ascii_unicode (plain_csv (Some (ch ",")))
           (py "b,c@d.ee") (ch ",") [[py "b"; py "c@d.ee"]]); reflexivity.
Defined.

(** ** Line folding *)

Lemma unfold_lines_foldl lines : unfold_lines lines = foldl unfold_step [] lines.
Proof. reflexivity. Qed.

Lemma unfold_step_continuation acc line :
  is_continuation line = true →
  unfold_step acc line = append_last (drop 1 line) acc.
Proof.
  destruct line as [|c tail]; [done|]. unfold unfold_step, is_continuation.
  by intros ->.
Qed.

Lemma unfold_step_line acc line :
  is_continuation line = false → unfold_step acc line = acc ++ [line].
Proof.
  destruct line as [|c tail]; [done|]. unfold unfold_step, is_continuation.
  by intros ->.
Qed.

Lemma append_last_snoc tail acc x :
  append_last tail (acc ++ [x]) = acc ++ [x ++ tail].
Proof.
  induction acc as [|y acc IH]; simpl; [done|].
  rewrite IH. by destruct (acc ++ [x]) eqn:E; [destruct acc|].
Qed.

Lemma unfold_pieces acc x (pieces : list (char * str)) rest :
  Forall (λ '(c, _), c = ch " " ∨ c = TAB) pieces →
  foldl unfold_step (acc ++ [x]) (map (λ '(c, piece), c :: piece) pieces ++ rest)
  = foldl unfold_step (acc ++ [x ++ concat (map snd pieces)]) rest.
Proof.
  intros Hp. revert x. induction Hp as [|[c piece] pieces Hc Hp IH]; intros x.
  - simpl. by rewrite app_nil_r.
  - cbn [map app foldl concat snd].
    rewrite unfold_step_continuation by (destruct Hc as [->| ->]; reflexivity).
    cbn [drop]. rewrite append_last_snoc, IH. by rewrite <- app_assoc.
Qed.

Lemma unfold_logical_lines acc logicals :
  Forall well_folded logicals →
  foldl unfold_step acc (flat_map fold_line logicals)
  = acc ++ map unfolded_line logicals.
Proof.
  intros Hl. revert acc.
  induction Hl as [|[first pieces] logicals [Hfirst Hpieces] Hl IH]; intros acc.
  - simpl. by rewrite app_nil_r.
  - cbn [flat_map map]. unfold fold_line, unfolded_line.
    cbn [fst snd] in *. rewrite <- app_comm_cons. cbn [foldl].
    rewrite unfold_step_line, unfold_pieces, IH by done.
    by rewrite <- app_assoc.
Qed.

(** Unfolding inverts folding: continuation lines that come before any
    line are dropped, and every logical line that was folded over
    several lines, each further piece behind one space or tab, comes
    back in one piece. *)
Theorem unfold_lines_inverts_folding (orphans : list str)
    (logicals : list (str * list (char * str)))
    (Horphans : forallb is_continuation orphans = true)
    (Hfolded : Forall well_folded logicals) :
  unfold_lines (orphans ++ flat_map fold_line logicals)
  = map unfolded_line logicals.
Proof.
  rewrite unfold_lines_foldl, foldl_app.
  assert (Hdrop : foldl unfold_step [] orphans = []).
  { induction orphans as [|line orphans IH]; [done|].
    simpl in Horphans. apply andb_true_iff in Horphans as [Hline Horphans].
    cbn [foldl]. rewrite unfold_step_continuation by done. by apply IH. }
  rewrite Hdrop. by rewrite unfold_logical_lines.
Qed.

Lemma unfold_lines_inverts_folding_witness :
  unfold_lines ([py " stray"]
                ++ flat_map fold_line [(py "EMAIL:john@exam", [(ch " ", py "ple.com")]);
                                       (py "FN:John", [])])
  = [py "EMAIL:john@example.com"; py "FN:John"].
Proof.
  apply (unfold_lines_inverts_folding [py " stray"]
           [(py "EMAIL:john@exam", [(ch " ", py "ple.com")]); (py "FN:John", [])]).
  - reflexivity.
  - repeat constructor.
Defined.

Lemma split_chr_nonempty sep s : split_chr sep s ≠ [].
Proof.
  destruct s as [|c s]; simpl; [done|].
  destruct (c =? sep); [done|]. by destruct (split_chr sep s).
Qed.

Lemma join_cons sep p q qs :
  join sep (p :: q :: qs) = p ++ sep ++ join sep (q :: qs).
Proof. reflexivity. Qed.

Lemma join_split_chr sep s : join [sep] (split_chr sep s) = s.
Proof.
  induction s as [|c s IH]; [done|]. cbn [split_chr].
  pose proof (split_chr_nonempty sep s) as Hne.
  destruct (split_chr sep s) as [|p ps] eqn:E; [done|].
  destruct (N.eqb_spec c sep) as [->|Hc].
  - by rewrite join_cons, IH.
  - destruct ps as [|p' ps].
    + simpl in *. by rewrite IH.
    + rewrite join_cons in *. by rewrite <- IH.
Qed.

Lemma unfold_lines_nothing_folded lines :
  forallb (λ line, negb (is_continuation line)) lines = true →
  unfold_lines lines = lines.
Proof.
  intros Hl. rewrite unfold_lines_foldl.
  assert (Hgen : ∀ acc, foldl unfold_step acc lines = acc ++ lines).
  { induction lines as [|line lines IH]; intros acc.
    - simpl. by rewrite app_nil_r.
    - simpl in Hl. apply andb_true_iff in Hl as [Hline Hl].
      apply negb_true_iff in Hline. cbn [foldl].
      rewrite unfold_step_line, (IH Hl) by done. by rewrite <- app_assoc. }
  apply Hgen.
Qed.

(** A card none of whose lines begins with a space or a tab is read as
    it is: splitting it into lines, unfolding them and joining them
    again gives the card back. *)
Theorem card_without_folded_lines_is_unchanged (vcard : str)
    (Hlines : forallb (λ line, negb (is_continuation line)) (split_chr LF vcard) = true) :
  join [LF] (unfold_lines (split_chr LF vcard)) = vcard.
Proof. rewrite unfold_lines_nothing_folded by done. apply join_split_chr. Qed.

Lemma card_without_folded_lines_is_unchanged_witness :
  join [LF] (unfold_lines (split_chr LF john_doe_vcf)) = john_doe_vcf.
Proof.
  apply (card_without_folded_lines_is_unchanged john_doe_vcf). reflexivity.
Defined.

(** ** Where the matches of [re.findall] come from *)

Lemma scan_found_at (m : cursor → option (str * nat)) skip prev s x :
  x ∈ scan m skip prev s →
  ∃ prev' s' n, s' `suffix_of` s ∧ m (Cursor prev' s') = Some (x, n).
Proof.
  revert skip prev. induction s as [|c s IH]; intros skip prev Hx.
  - destruct skip; simpl in Hx; [|by apply elem_of_nil in Hx].
    destruct (m (Cursor prev [])) as [[found n]|] eqn:Hm;
      [|by apply elem_of_nil in Hx].
    apply list_elem_of_singleton in Hx as ->. by exists prev, [], n.
  - assert (Hlater : ∀ skip' prev', x ∈ scan m skip' prev' s →
              ∃ prev'' s' n, s' `suffix_of` c :: s
                             ∧ m (Cursor prev'' s') = Some (x, n)).
    { intros skip' prev' Hin. apply IH in Hin as (p & s' & n & Hs & Hm).
      exists p, s', n. split; [by apply suffix_cons_r|done]. }
    destruct skip; simpl in Hx; [|by eapply Hlater].
    destruct (m (Cursor prev (c :: s))) as [[found n]|] eqn:Hm; [|by eapply Hlater].
    apply elem_of_cons in Hx as [->|Hx]; [|by eapply Hlater].
    by exists prev, (c :: s), n.
Qed.

Lemma group1_found `{Unicode} pre grp post cur found n :
  group1 pre grp post cur = Some (found, n) →
  ∃ c1 c2, In c1 (step pre cur) ∧ In c2 (step grp c1) ∧ found = matched c1 c2.
Proof.
  unfold group1.
  destruct (flat_map _ _) as [|[[c1 c2] c3] l] eqn:E; [done|].
  intros [= <- _].
  assert (Hin : In (c1, c2, c3)
            (flat_map (λ c1, flat_map (λ c2, map (λ c3, (c1, c2, c3)) (step post c2))
                                      (step grp c1)) (step pre cur)))
    by (rewrite E; by left).
  apply in_flat_map in Hin as (x1 & H1 & Hin).
  apply in_flat_map in Hin as (x2 & H2 & Hin).
  apply in_map_iff in Hin as (x3 & [= -> -> ->] & _).
  by exists c1, c2.
Qed.

Lemma Forall_suffix {A} (P : A → Prop) (l1 l2 : list A) :
  l1 `suffix_of` l2 → Forall P l2 → Forall P l1.
Proof. intros [k ->]. rewrite Forall_app. tauto. Qed.

(** The group of a match is text of the subject, and of the class the
    group repeats. *)
Lemma group1_found_within `{Unicode} (P : char → Prop) pre grp post cur found n :
  group1 pre grp post cur = Some (found, n) →
  Forall P (rest cur) → Forall P found.
Proof.
  intros Hg Hcur. apply group1_found in Hg as (c1 & c2 & H1 & _ & ->).
  apply step_rest_suffix in H1. unfold matched.
  apply Forall_take. by eapply Forall_suffix.
Qed.

Lemma group1_found_class `{Unicode} pre greedy lo p post cur found n :
  group1 pre (Rep greedy lo p) post cur = Some (found, n) →
  Forall (λ c, p c = true) found.
Proof.
  intros Hg. apply group1_found in Hg as (c1 & c2 & _ & H2 & ->).
  apply step_Rep_consumes in H2 as (w & Hw & _ & Hall).
  by rewrite (consumes_matched _ _ _ Hw).
Qed.

(** ** Cleaned e-mail values *)

Lemma Forall_lstrip_by (P : char → Prop) p s :
  Forall P s → Forall P (lstrip_by p s).
Proof. apply Forall_suffix, lstrip_by_suffix. Qed.

Lemma Forall_rstrip_by (P : char → Prop) p s :
  Forall P s → Forall P (rstrip_by p s).
Proof.
  intros Hs. unfold rstrip_by. apply Forall_rev, Forall_lstrip_by.
  by apply Forall_rev.
Qed.

Lemma Forall_cleaned `{Unicode} (P : char → Prop) raw :
  Forall P raw → Forall P (rstrip_chars (py ";: " ++ [TAB]) (strip raw)).
Proof.
  intros Hraw. unfold rstrip_chars, strip.
  by apply Forall_rstrip_by, Forall_rstrip_by, Forall_lstrip_by.
Qed.

Lemma anchored_shape_match `{Unicode} s :
  re_match (seqs [Bol false; email_shape; Eol false]) s = true →
  ∃ w, address_shape w ∧ (s = w ∨ s = w ++ [LF]).
Proof.
  unfold re_match.
  destruct (step _ _) as [|e l] eqn:E; [discriminate|]. intros _.
  assert (Hin : In e (step (seqs [Bol false; email_shape; Eol false])
                           (Cursor None s))) by (rewrite E; by left).
  clear E. change (seqs [Bol false; email_shape; Eol false])
    with (Seq (Bol false) (Seq email_shape (Eol false))) in Hin.
  rewrite step_Seq in Hin. apply in_flat_map in Hin as (c0 & H0 & Hin).
  simpl in H0. destruct H0 as [<-|[]].
  rewrite step_Seq in Hin. apply in_flat_map in Hin as (c1 & H1 & Hend).
  apply email_shape_consumes in H1 as (w & Hw & Hshape).
  exists w. split; [done|]. unfold consumes in Hw. simpl in *.
  unfold at_eol in Hend. rewrite Hw.
  destruct (rest c1) as [|c [|c' s']].
  - left. by rewrite app_nil_r.
  - right. destruct (N.eqb_spec c LF) as [->|]; [done|]. simpl in Hend. done.
  - simpl in Hend. rewrite andb_false_r in Hend. done.
Qed.

Lemma clean_email_shape `{Unicode} raw e :
  clean_email raw = Some e →
  Forall (λ c, dot c = true) raw → address_shape e.
Proof.
  unfold clean_email. cbv zeta. intros Hclean Hraw.
  pose proof (Forall_cleaned (λ c, dot c = true) raw Hraw) as Hall.
  set (cleaned := rstrip_chars (py ";: " ++ [TAB]) (strip raw)) in *.
  destruct (_ && _ && re_match _ _) eqn:Hcond; [|done].
  injection Hclean as <-.
  apply andb_true_iff in Hcond as [_ Hmatch].
  apply anchored_shape_match in Hmatch as (w & Hshape & [Hw|Hw]).
  - by rewrite Hw.
  - exfalso.
    rewrite Hw, Forall_app, Forall_singleton in Hall. by destruct Hall as [_ Hlf].
Qed.

Lemma has_chr_false_Forall c s :
  has_chr c s = false ↔ Forall (λ x, x ≠ c) s.
Proof.
  unfold has_chr. induction s as [|x s IH]; simpl.
  - split; [constructor|done].
  - rewrite orb_false_iff, Forall_cons, IH.
    destruct (N.eqb_spec c x); split; intros [? ?]; split; done.
Qed.

Lemma clean_email_needs_at `{Unicode} raw :
  has_chr (ch "@") raw = false → clean_email raw = None.
Proof.
  intros Hat. unfold clean_email. cbv zeta.
  apply has_chr_false_Forall in Hat.
  apply (Forall_cleaned (λ x, x ≠ ch "@")) in Hat.
  apply has_chr_false_Forall in Hat.
  set (cleaned := rstrip_chars (py ";: " ++ [TAB]) (strip raw)) in *.
  rewrite Hat. by rewrite andb_false_r.
Qed.

(** ** The cards of a file and their e-mails *)

Lemma vcf_store_dom `{Unicode} content e :
  e ∈ dom (vcf_store content) →
  ∃ vcard, vcard ∈ vcards_of content ∧ e ∈ (parse_vcard vcard).2.
Proof.
  unfold vcf_store. generalize (vcards_of content). intros cards.
  assert (Hgen : ∀ m : gmap (list N) EmailRecord,
    e ∈ dom (foldl (λ email_records vcard,
                      let '(first_name', last_name', cleaned_emails) := parse_vcard vcard in
                      match cleaned_emails with
                      | [] => email_records
                      | _ => upsert_all first_name' last_name' cleaned_emails email_records
                      end) m cards) →
    e ∈ dom m ∨ ∃ vcard, vcard ∈ cards ∧ e ∈ (parse_vcard vcard).2).
  { induction cards as [|vcard cards IH]; intros m; simpl; [auto|].
    intros Hin. apply IH in Hin as [Hin|(v & Hv & He)].
    - destruct (parse_vcard vcard) as [[f l] cleaned] eqn:Hp.
      assert (e ∈ dom m ∨ e ∈ cleaned) as [?|?]; [|auto|].
      { destruct cleaned as [|x cleaned]; [auto|]. by apply upsert_all_dom in Hin. }
      right. exists vcard. split; [by left|]. by rewrite Hp.
    - right. exists v. split; [by right|done]. }
  intros Hin. apply Hgen in Hin as [Hin|?]; [|done].
  rewrite dom_empty_L in Hin. by apply elem_of_empty in Hin.
Qed.

Lemma parse_vcard_emails `{Unicode} vcard e :
  e ∈ (parse_vcard vcard).2 →
  ∃ raw cur n, field (py "EMAIL") cur = Some (raw, n) ∧ clean_email raw = Some e.
Proof.
  unfold parse_vcard. destruct (card_names _) as [f l]. simpl.
  intros He. apply list_elem_of_omap in He as (raw & Hraw & Hclean).
  apply scan_found in Hraw as (cur & n & Hm). eauto.
Qed.

(** Every record an ingester returns has an e-mail of the shape of the
    pattern: a local part, [@], a domain, [.] and a label of two or
    more characters of [[A-Z|a-z]]. *)
Theorem every_record_has_a_shaped_address `{Unicode} `{CsvModule} (content : str)
    (records : list EmailRecord)
    (Hcsv : find_emails_in_csv content = Some records) :
  Forall address_shape (email <$> records)
  ∧ Forall address_shape (email <$> parse_vcf_file content).
Proof.
  split.
  - apply Forall_forall. intros e He.
    unfold find_emails_in_csv in Hcsv.
    destruct (detect_delimiter content) as [d|].
    + destruct (csv_rows d content) as [[|row rows]|]; simplify_eq.
      * by apply elem_of_nil in He.
      * apply sorted_values_emails in He; [|apply keyed_csv_store].
        apply csv_store_dom in He as (r & _ & He).
        apply found_emails_from_cell in He as (cell & _ & He).
        by apply extractor_match_shape in He as [Hshape _].
    + simplify_eq. apply sorted_values_emails in He; [|apply keyed_text_store].
      apply text_store_spec in He.
      by apply extractor_match_shape in He as [Hshape _].
  - apply Forall_forall. intros e He.
    apply sorted_values_emails in He; [|apply keyed_vcf_store].
    apply vcf_store_dom in He as (vcard & _ & He).
    apply parse_vcard_emails in He as (raw & cur & n & Hfield & Hclean).
    apply (clean_email_shape raw); [done|].
    unfold field in Hfield. by apply group1_found_class in Hfield.
Qed.

Lemma every_record_has_a_shaped_address_witness :
  Forall address_shape (email <$> [mkEmailRecord (py "x") [] (py "y@z.com")])
  ∧ Forall address_shape (email <$> @parse_vcf_file ascii_unicode late_first_name_csv).
Proof.
  apply (@every_record_has_a_shaped_address ascii_unicode (plain_csv (Some (ch ",")))
           late_first_name_csv).
  vm_compute. reflexivity.
Defined.

(** ** Cards without [@] *)

Lemma Forall_split_chr (P : char → Prop) sep s :
  Forall P s → Forall (Forall P) (split_chr sep s).
Proof.
  induction 1 as [|c s Hc Hs IH]; simpl; [by repeat constructor|].
  destruct (c =? sep); [by constructor|].
  destruct (split_chr sep s) as [|p ps]; [by repeat constructor|].
  inversion IH; subst. by repeat constructor.
Qed.

Lemma Forall_append_last (P : char → Prop) tail lines :
  Forall P tail → Forall (Forall P) lines → Forall (Forall P) (append_last tail lines).
Proof.
  intros Ht. induction 1 as [|x lines Hx Hl IH]; simpl; [constructor|].
  destruct lines as [|y lines].
  - constructor; [|constructor]. by apply Forall_app.
  - by constructor.
Qed.

Lemma Forall_unfold_lines (P : char → Prop) lines :
  Forall (Forall P) lines → Forall (Forall P) (unfold_lines lines).
Proof.
  rewrite unfold_lines_foldl.
  assert (Hgen : ∀ acc, Forall (Forall P) acc → Forall (Forall P) lines →
                        Forall (Forall P) (foldl unfold_step acc lines)).
  { induction lines as [|line lines IH]; intros acc Hacc Hl; [done|].
    inversion Hl as [|? ? Hline Hl']; subst. cbn [foldl]. apply IH; [|done].
    unfold unfold_step. destruct line as [|c tail].
    - apply Forall_app. split; [done|]. by repeat constructor.
    - destruct ((c =? ch " ") || (c =? TAB)).
      + apply Forall_append_last; [|done]. by inversion Hline.
      + apply Forall_app. split; [done|]. constructor; [done|constructor]. }
  intros Hl. by apply Hgen.
Qed.

Lemma Forall_join (P : char → Prop) sep pieces :
  Forall P sep → Forall (Forall P) pieces → Forall P (join sep pieces).
Proof.
  intros Hsep. induction 1 as [|p pieces Hp Hl IH]; simpl; [constructor|].
  destruct pieces as [|q pieces]; [done|].
  apply Forall_app. split; [done|]. apply Forall_app. by split.
Qed.

Lemma findall_group1_within `{Unicode} (P : char → Prop) pre grp post s x :
  Forall P s → x ∈ findall (group1 pre grp post) s → Forall P x.
Proof.
  intros Hs Hx. apply scan_found_at in Hx as (prev & s' & n & Hsuf & Hm).
  apply (group1_found_within P) in Hm; [done|]. simpl.
  by eapply Forall_suffix.
Qed.

Lemma vcards_of_within `{Unicode} (P : char → Prop) content vcard :
  Forall P content → vcard ∈ vcards_of content → Forall P vcard.
Proof.
  intros Hc. unfold vcards_of.
  destruct (findall _ content) as [|v vs] eqn:E.
  - by intros ->%list_elem_of_singleton.
  - rewrite <- E. by apply findall_group1_within.
Qed.

Lemma omap_nothing {A B} (f : A → option B) l :
  (∀ x, x ∈ l → f x = None) → omap f l = [].
Proof.
  induction l as [|x l IH]; intros Hf; simpl; [done|].
  rewrite (Hf x) by (by left). apply IH. intros y Hy. apply Hf. by right.
Qed.

Lemma parse_vcard_without_at `{Unicode} vcard :
  Forall (λ c, c ≠ ch "@") vcard → (parse_vcard vcard).2 = [].
Proof.
  intros Hv. unfold parse_vcard. destruct (card_names _) as [f l]. simpl.
  apply omap_nothing. intros raw Hraw.
  apply clean_email_needs_at, has_chr_false_Forall.
  unfold field in Hraw.
  apply (findall_group1_within (λ c, c ≠ ch "@")) in Hraw; [done|].
  apply Forall_join; [by repeat constructor|].
  by apply Forall_unfold_lines, Forall_split_chr.
Qed.

(** A VCF file without [@] yields no record: no EMAIL value of any card
    passes the cleaning. *)
Theorem vcf_without_at_yields_nothing `{Unicode} (content : str)
    (Hat : has_chr (ch "@") content = false) :
  parse_vcf_file content = [].
Proof.
  apply has_chr_false_Forall in Hat.
  unfold parse_vcf_file. rewrite <- sorted_values_empty. f_equal.
  unfold vcf_store. apply foldl_fixed. intros vcard Hvcard.
  pose proof (parse_vcard_without_at vcard
                (vcards_of_within _ _ _ Hat Hvcard)) as Hnil.
  destruct (parse_vcard vcard) as [[f l] cleaned]. simpl in Hnil. by subst.
Qed.

Lemma vcf_without_at_yields_nothing_witness :
  @parse_vcf_file ascii_unicode alice_bob = [].
Proof.
  apply (@vcf_without_at_yields_nothing ascii_unicode alice_bob). reflexivity.
Defined.

(** ** Extracted addresses are pieces of the text *)

Lemma count_chr_app c a b : count_chr c (a ++ b) = (count_chr c a + count_chr c b)%nat.
Proof. unfold count_chr. by rewrite filter_app, length_app. Qed.

Lemma count_chr_outside c p s :
  p c = false → Forall (λ x, p x = true) s → count_chr c s = O.
Proof.
  intros Hc Hs. apply count_chr_absent. apply has_chr_false_Forall.
  eapply Forall_impl; [exact Hs|]. intros x Hx ->. congruence.
Qed.

(** The extractor makes up nothing: every address it returns stands in
    the text, and holds exactly one [@]. *)
Theorem extracted_address_occurs_in_text `{Unicode} (text address : str) :
  address ∈ extract_emails_from_text text →
  (∃ before_it after_it, text = before_it ++ address ++ after_it)
  ∧ count_chr (ch "@") address = 1%nat.
Proof.
  intros Hin. split.
  - unfold extract_emails_from_text, findall in Hin.
    rewrite elem_of_list_to_set in Hin.
    apply scan_found_at in Hin as (prev & s' & n & [k ->] & Hm).
    unfold whole in Hm.
    destruct (step email_pattern (Cursor prev s')) as [|e l] eqn:E; [done|].
    injection Hm as <- _.
    assert (He : In e (step email_pattern (Cursor prev s'))) by (rewrite E; by left).
    apply step_rest_suffix in He as [w Hw]. simpl in Hw.
    exists k, (rest e). f_equal. unfold matched, consumed. simpl.
    rewrite Hw, length_app.
    replace (length w + length (rest e) - length (rest e))%nat with (length w) by lia.
    by rewrite take_app_length.
  - apply extractor_match_shape in Hin as [(l & d & t & -> & _ & Hl & _ & Hd & _ & Ht) _].
    rewrite !count_chr_app.
    rewrite (count_chr_outside _ local_chr l), (count_chr_outside _ domain_chr d),
      (count_chr_outside _ tld_chr t) by done.
    reflexivity.
Qed.

Lemma extracted_address_occurs_in_text_witness :
  (∃ before_it after_it, pipe_text = before_it ++ py "x@y.a|b" ++ after_it)
  ∧ count_chr (ch "@") (py "x@y.a|b") = 1%nat.
Proof.
  apply (@extracted_address_occurs_in_text ascii_unicode pipe_text (py "x@y.a|b")).
  by vm_compute.
Defined.

(** ** What the patterns of the classifier accept *)

Lemma counts_nonempty greedy lo n :
  counts greedy lo n = [] ↔ (n < lo)%nat.
Proof.
  unfold counts. split.
  - intros Hnil. destruct (decide (n < lo)%nat) as [|Hge]; [done|].
    assert (Hin : In lo (seq lo (S n - lo))) by (apply in_seq; lia).
    destruct greedy; [apply in_rev in Hin|]; rewrite Hnil in Hin; done.
  - intros Hlt. replace (S n - lo)%nat with O by lia. by destruct greedy.
Qed.

Lemma starts_with_run c s :
  starts_with [c; c; c] s = (3 <=? run (N.eqb c) s)%nat.
Proof.
  destruct s as [|x1 s]; [done|]. simpl. destruct (c =? x1); [|done]. simpl.
  destruct s as [|x2 s]; [done|]. simpl. destruct (c =? x2); [|done]. simpl.
  destruct s as [|x3 s]; [done|]. simpl. by destruct (c =? x3).
Qed.

Lemma step_Rep_nonempty `{Unicode} greedy lo p cur :
  match step (Rep greedy lo p) cur with [] => false | _ :: _ => true end
  = (lo <=? run p (rest cur))%nat.
Proof.
  simpl. destruct (counts greedy lo (run p (rest cur))) as [|k ks] eqn:E; simpl.
  - apply counts_nonempty in E. symmetry. apply Nat.leb_gt. lia.
  - symmetry. apply Nat.leb_le.
    destruct (decide (lo ≤ run p (rest cur))%nat) as [|Hlt]; [done|].
    assert (counts greedy lo (run p (rest cur)) = []) by (apply counts_nonempty; lia).
    congruence.
Qed.

Lemma rule2_step `{Unicode} prev s :
  match step (Alt (Rep true 3 (N.eqb (ch ".")))
             (Alt (Rep true 3 (N.eqb (ch "_")))
                  (Rep true 3 (N.eqb (ch "-"))))) (Cursor prev s)
  with [] => false | _ :: _ => true end
  = starts_with (py "...") s || starts_with (py "___") s || starts_with (py "---") s.
Proof.
  change (py "...") with [ch "."; ch "."; ch "."].
  change (py "___") with [ch "_"; ch "_"; ch "_"].
  change (py "---") with [ch "-"; ch "-"; ch "-"].
  rewrite !starts_with_run.
  pose proof (step_Rep_nonempty true 3 (N.eqb (ch ".")) (Cursor prev s)) as H1.
  pose proof (step_Rep_nonempty true 3 (N.eqb (ch "_")) (Cursor prev s)) as H2.
  pose proof (step_Rep_nonempty true 3 (N.eqb (ch "-")) (Cursor prev s)) as H3.
  cbn [rest] in H1, H2, H3. rewrite <- H1, <- H2, <- H3.
  cbn [step].
  destruct (map _ (counts true 3 (run (N.eqb (ch ".")) _)));
    destruct (map _ (counts true 3 (run (N.eqb (ch "_")) _)));
    destruct (map _ (counts true 3 (run (N.eqb (ch "-")) _))); done.
Qed.

Lemma contains_cons needle c hay :
  contains needle (c :: hay) = starts_with needle (c :: hay) || contains needle hay.
Proof. reflexivity. Qed.

(** Pattern 2 is found exactly in the local parts that hold three dots,
    three underscores or three hyphens in a row. *)
Lemma rule2_spec `{Unicode} local_part :
  rule2 local_part
  = contains (py "...") local_part || contains (py "___") local_part
    || contains (py "---") local_part.
Proof.
  unfold rule2, re_search. generalize (@None N).
  induction local_part as [|c s IH]; intros prev.
  - reflexivity.
  - cbn [search_from]. rewrite !contains_cons.
    pose proof (rule2_step prev (c :: s)) as Hstep.
    destruct (step _ (Cursor prev (c :: s))) as [|e l].
    + rewrite IH.
      destruct (starts_with (py "...") (c :: s)), (starts_with (py "___") (c :: s)),
        (starts_with (py "---") (c :: s)); try done.
    + destruct (starts_with (py "...") (c :: s)), (starts_with (py "___") (c :: s)),
        (starts_with (py "---") (c :: s)); try done; simpl;
        rewrite ?orb_true_r; done.
Qed.

(** Runs flag an address: three dots, underscores or hyphens in a row in
    the local part, or nine times the same character, other than the
    line feed, in a row in the lower-cased address. *)
Theorem runs_make_an_address_suspicious `{Unicode} (email : str)
    (Hrun : contains (py "...") (local_and_domain email).1 = true
            ∨ contains (py "___") (local_and_domain email).1 = true
            ∨ contains (py "---") (local_and_domain email).1 = true
            ∨ repeats9_on_a_line (str_lower email)) :
  is_suspicious_email email = true.
Proof.
  unfold is_suspicious_email.
  destruct (local_and_domain email) as [local_part domain]. simpl in Hrun.
  destruct Hrun as [Hr|[Hr|[Hr|Hr]]].
  - rewrite rule2_spec, Hr. simpl. by rewrite orb_true_r.
  - rewrite rule2_spec, Hr. simpl. by rewrite !orb_true_r.
  - rewrite rule2_spec, Hr. simpl. by rewrite !orb_true_r.
  - apply has_repeat9_spec in Hr. unfold rule6. rewrite Hr.
    by rewrite !orb_true_r.
Qed.

Lemma runs_make_an_address_suspicious_witness :
  @is_suspicious_email ascii_unicode (py "jane---doe@company.com") = true.
Proof.
  apply (@runs_make_an_address_suspicious ascii_unicode (py "jane---doe@company.com")).
  right. right. left. reflexivity.
Defined.

Lemma step_lit_consumes `{Unicode} s cur e :
  In e (step (lit s) cur) → consumes cur s e.
Proof.
  revert cur. induction s as [|c s IH]; intros cur Hin.
  - simpl in Hin. destruct Hin as [<-|[]]. done.
  - change (lit (c :: s)) with (Seq (Cls (N.eqb c)) (lit s)) in Hin.
    rewrite step_Seq in Hin. apply in_flat_map in Hin as (mid & Hmid & Hin).
    apply IH in Hin. unfold consumes in *. simpl in Hmid.
    destruct (rest cur) as [|x s'] eqn:Hrest; [done|].
    destruct (N.eqb_spec c x) as [->|]; [|done].
    destruct Hmid as [<-|[]]. simpl in Hin. by rewrite Hin.
Qed.

Lemma run_app_stop p w c r :
  Forall (λ x, p x = true) w → p c = false → run p (w ++ c :: r) = length w.
Proof.
  intros Hw Hc. induction Hw as [|x w Hx Hw IH]; simpl.
  - by rewrite Hc.
  - by rewrite Hx, IH.
Qed.

Lemma run_all p w : Forall (λ x, p x = true) w → run p w = length w.
Proof.
  induction 1 as [|x w Hx Hw IH]; simpl; [done|]. by rewrite Hx, IH.
Qed.

Lemma counts_greedy_head lo n :
  (lo ≤ n)%nat → ∃ l, counts true lo n = n :: l.
Proof.
  intros Hle. unfold counts.
  replace (S n - lo)%nat with (S (n - lo)) by lia.
  rewrite seq_S, rev_app_distr. simpl.
  replace (lo + (n - lo))%nat with n by lia. eauto.
Qed.

Lemma advance_app p w r :
  advance (length w) (Cursor p (w ++ r)) = Cursor (from_option Some p (last w)) r.
Proof.
  revert p. induction w as [|c w IH]; intros p; [by destruct r|].
  simpl. rewrite IH. f_equal. destruct w as [|x w']; [done|].
  change (last (c :: x :: w')) with (last (x :: w')).
  destruct (last (x :: w')) eqn:E; [done|]. by apply last_None in E.
Qed.

Lemma step_Bol_start `{Unicode} r s :
  step (Seq (Bol false) r) (Cursor None s) = step r (Cursor None s).
Proof. rewrite step_Seq. simpl. apply app_nil_r. Qed.

Lemma step_Rep_greedy_first `{Unicode} lo p r cur :
  (lo ≤ run p (rest cur))%nat →
  ∃ l, step (Seq (Rep true lo p) r) cur
       = step r (advance (run p (rest cur)) cur) ++ l.
Proof.
  intros Hle. rewrite step_Seq. cbn [step].
  destruct (counts_greedy_head lo _ Hle) as [l ->]. simpl. eauto.
Qed.

Lemma rule4_accepts `{Unicode} domain :
  long_random_domain domain → rule4 domain = true.
Proof.
  intros (w & tld & tail & Hw & Hlen & Htld & Htail & ->).
  unfold rule4, re_match.
  change (seqs [Bol false; Rep true 25 lower_alnum; lit (py ".");
                Alt (lit (py "com")) (Alt (lit (py "net")) (lit (py "org")));
                Eol false])
    with (Seq (Bol false) (Seq (Rep true 25 lower_alnum)
            (seqs [lit (py ".");
                   Alt (lit (py "com")) (Alt (lit (py "net")) (lit (py "org")));
                   Eol false]))).
  rewrite step_Bol_start.
  change (py "." ++ tld ++ tail) with (ch "." :: tld ++ tail).
  edestruct (step_Rep_greedy_first 25 lower_alnum) as [l ->].
  { cbn [rest]. by rewrite run_app_stop. }
  cbn [rest]. rewrite run_app_stop, advance_app by done.
  set (b := from_option Some None (last w)). clearbody b.
  repeat (apply elem_of_cons in Htld as [->|Htld]);
    [| | |by apply elem_of_nil in Htld];
    repeat (apply elem_of_cons in Htail as [->|Htail]);
    try (by apply elem_of_nil in Htail); reflexivity.
Qed.

Lemma rule4_shape `{Unicode} domain :
  rule4 domain = true → long_random_domain domain.
Proof.
  unfold rule4, re_match.
  destruct (step _ _) as [|e l] eqn:E; [discriminate|]. intros _.
  assert (Hin : In e (step (seqs [Bol false; Rep true 25 lower_alnum; lit (py ".");
                Alt (lit (py "com")) (Alt (lit (py "net")) (lit (py "org")));
                Eol false]) (Cursor None domain))) by (rewrite E; by left).
  clear E.
  change (seqs [Bol false; Rep true 25 lower_alnum; lit (py ".");
                Alt (lit (py "com")) (Alt (lit (py "net")) (lit (py "org")));
                Eol false])
    with (Seq (Bol false) (Seq (Rep true 25 lower_alnum) (Seq (lit (py "."))
            (Seq (Alt (lit (py "com")) (Alt (lit (py "net")) (lit (py "org"))))
                 (Eol false))))) in Hin.
  rewrite step_Seq in Hin. apply in_flat_map in Hin as (c0 & H0 & Hin).
  simpl in H0. destruct H0 as [<-|[]].
  rewrite step_Seq in Hin. apply in_flat_map in Hin as (c1 & H1 & Hin).
  rewrite step_Seq in Hin. apply in_flat_map in Hin as (c2 & H2 & Hin).
  rewrite step_Seq in Hin. apply in_flat_map in Hin as (c3 & H3 & Hend).
  apply step_Rep_consumes in H1 as (w & Hw & Hlen & Hall).
  apply step_lit_consumes in H2.
  assert (Htld : ∃ tld, tld ∈ [py "com"; py "net"; py "org"] ∧ consumes c2 tld c3).
  { cbn [step] in H3. apply in_app_or in H3 as [H3|H3]; [|apply in_app_or in H3 as [H3|H3]];
      apply step_lit_consumes in H3; eexists; (split; [|exact H3]).
    - by left.
    - right. by left.
    - right. right. by left. }
  destruct Htld as (tld & Htld & H3').
  assert (Htail : rest c3 ∈ [[]; [LF]]).
  { simpl in Hend. unfold at_eol in Hend.
    destruct (rest c3) as [|x [|x' s']].
    - by left.
    - destruct (N.eqb_spec x LF) as [Hx|Hx]; [|done].
      rewrite Hx. right. by left.
    - simpl in Hend. rewrite andb_false_r in Hend. done. }
  exists w, tld, (rest c3). repeat split; try done.
  unfold consumes in *. simpl in Hw. by rewrite Hw, H2, H3'.
Qed.

(** Pattern 4 flags exactly the domains of 25 or more lower-case letters
    and digits before [.com], [.net] or [.org] (a line feed may follow);
    an address with such a domain is suspicious. *)
Theorem long_random_domains_are_suspicious `{Unicode} (email local_part domain : str)
    (Hsplit : split_once (ch "@") email = Some (local_part, domain)) :
  (rule4 domain = true ↔ long_random_domain domain)
  ∧ (long_random_domain domain → is_suspicious_email email = true).
Proof.
  split; [split; [apply rule4_shape|apply rule4_accepts]|].
  intros Hd. unfold is_suspicious_email, local_and_domain. rewrite Hsplit. simpl.
  rewrite (rule4_accepts domain Hd). by rewrite !orb_true_r.
Qed.

Lemma long_random_domains_are_suspicious_witness :
  @is_suspicious_email ascii_unicode (py "x@a1b2c3d4e5f6g7h8i9j0k1l2m3n4o5p6.org") = true.
Proof.
  apply (@long_random_domains_are_suspicious ascii_unicode
           (py "x@a1b2c3d4e5f6g7h8i9j0k1l2m3n4o5p6.org") (py "x")
           (py "a1b2c3d4e5f6g7h8i9j0k1l2m3n4o5p6.org") eq_refl).
  exists (py "a1b2c3d4e5f6g7h8i9j0k1l2m3n4o5p6"), (py "org"), [].
  split; [by repeat constructor|]. split; [simpl; lia|].
  split; [right; right; by left|]. split; [by left|]. reflexivity.
Defined.

(** Short ordinary addresses are never flagged: a local part of at most
    15 characters without three dots, underscores or hyphens in a row,
    a domain of fewer than 29 characters, and no character nine times
    in a row. *)
Theorem short_plain_addresses_are_not_suspicious `{Unicode} (email : str)
    (Hlocal : (length (local_and_domain email).1 ≤ 15)%nat)
    (Hdomain : (length (local_and_domain email).2 < 29)%nat)
    (Hdots : contains (py "...") (local_and_domain email).1 = false)
    (Hunders : contains (py "___") (local_and_domain email).1 = false)
    (Hhyphens : contains (py "---") (local_and_domain email).1 = false)
    (Hrepeat : ¬ repeats9_on_a_line (str_lower email)) :
  is_suspicious_email email = false.
Proof.
  unfold is_suspicious_email.
  destruct (local_and_domain email) as [local_part domain]. simpl in *.
  assert (H1 : rule1 local_part = false).
  { unfold rule1. replace (40 <? length local_part)%nat with false; [done|].
    symmetry. apply Nat.ltb_ge. lia. }
  assert (H2 : rule2 local_part = false) by (by rewrite rule2_spec, Hdots, Hunders, Hhyphens).
  assert (H3 : rule3 local_part = false).
  { unfold rule3. replace (15 <? length local_part)%nat with false; [done|].
    symmetry. apply Nat.ltb_ge. lia. }
  assert (H4 : rule4 domain = false).
  { destruct (rule4 domain) eqn:E; [|done]. exfalso.
    apply rule4_shape in E as (w & tld & tail & _ & Hlen & Htld & _ & ->).
    rewrite !length_app in Hdomain.
    assert (length tld = 3%nat).
    { repeat (apply elem_of_cons in Htld as [->|Htld]); try done.
      by apply elem_of_nil in Htld. }
    simpl in Hdomain. lia. }
  assert (H5 : rule5 email local_part = false).
  { unfold rule5. replace (30 <? length local_part)%nat with false.
    - by rewrite andb_false_r.
    - symmetry. apply Nat.ltb_ge. lia. }
  assert (H6 : rule6 email = false).
  { unfold rule6. destruct (has_repeat9 (str_lower email)) eqn:E; [|done].
    by apply has_repeat9_spec in E. }
  assert (H7 : rule7 email local_part = false).
  { unfold rule7. replace (30 <? length local_part)%nat with false; [done|].
    symmetry. apply Nat.ltb_ge. lia. }
  assert (H8 : rule8 email local_part = false).
  { unfold rule8. replace (35 <? length local_part)%nat with false; [done|].
    symmetry. apply Nat.ltb_ge. lia. }
  by rewrite H1, H2, H3, H4, H5, H6, H7, H8.
Qed.

Lemma short_plain_addresses_are_not_suspicious_witness :
  @is_suspicious_email ascii_unicode (py "jane.doe@company.com") = false.
Proof.
  apply (@short_plain_addresses_are_not_suspicious ascii_unicode
           (py "jane.doe@company.com")); try reflexivity.
  - simpl. lia.
  - simpl. lia.
  - intros Hr. apply has_repeat9_spec in Hr. discriminate Hr.
Defined.

(** ** A plain address alone is found *)

Lemma step_Rep `{Unicode} greedy lo p cur :
  step (Rep greedy lo p) cur
  = map (λ k, advance k cur) (counts greedy lo (run p (rest cur))).
Proof. reflexivity. Qed.

Lemma step_lit1 `{Unicode} c r b s :
  step (Seq (Seq (Cls (N.eqb c)) Eps) r) (Cursor b (c :: s))
  = step r (Cursor (Some c) s).
Proof.
  rewrite !step_Seq. cbn [step rest]. rewrite N.eqb_refl. simpl.
  apply app_nil_r.
Qed.

Lemma step_lit1_fails `{Unicode} c r cur :
  (∀ x s, rest cur = x :: s → x ≠ c) →
  step (Seq (Seq (Cls (N.eqb c)) Eps) r) cur = [].
Proof.
  intros Hne. rewrite !step_Seq. cbn [step].
  destruct (rest cur) as [|x s] eqn:Hrest; [done|].
  destruct (N.eqb_spec c x) as [->|]; [|done]. by destruct (Hne x s).
Qed.

Lemma flat_map_skip {A B} (f : A → list B) xs ys :
  (∀ x, In x xs → f x = []) → flat_map f (xs ++ ys) = flat_map f ys.
Proof.
  induction xs as [|x xs IH]; intros Hf; simpl; [done|].
  rewrite (Hf x) by (by left). apply IH. intros y Hy. apply Hf. by right.
Qed.

Lemma counts_greedy_split n k :
  (1 ≤ n)%nat →
  counts true 1 (n + S k) = rev (seq (S n) (S k)) ++ n :: rev (seq 1 (n - 1)).
Proof.
  intros Hn. unfold counts.
  replace (S (n + S k) - 1)%nat with ((n - 1) + (1 + S k))%nat by lia.
  rewrite seq_app, (seq_app 1 (S k)), !rev_app_distr.
  replace (1 + (n - 1))%nat with n by lia.
  replace (n + 1)%nat with (S n) by lia. simpl. by rewrite <- app_assoc.
Qed.

Lemma plain_chr_local c : plain_chr c = true → local_chr c = true.
Proof. unfold plain_chr, local_chr. intros ->. done. Qed.

Lemma plain_chr_domain c : plain_chr c = true → domain_chr c = true.
Proof. unfold plain_chr, domain_chr. intros ->. done. Qed.

Lemma is_letter_tld c : is_letter c = true → tld_chr c = true.
Proof.
  unfold is_letter, tld_chr. destruct (upper_AZ c), (lower_az c); simpl; try done.
  by rewrite orb_true_r.
Qed.

Lemma is_letter_domain c : is_letter c = true → domain_chr c = true.
Proof.
  unfold is_letter, domain_chr. destruct (upper_AZ c), (lower_az c); done.
Qed.

Lemma is_letter_plain c : is_letter c = true → plain_chr c = true.
Proof. unfold is_letter, plain_chr. by intros ->. Qed.

Lemma is_letter_not_dot c : is_letter c = true → c ≠ ch ".".
Proof. intros Hc ->. discriminate Hc. Qed.

Lemma email_shape_on_plain `{Unicode} b l d t :
  l ≠ [] → Forall (λ c, plain_chr c = true) l →
  d ≠ [] → Forall (λ c, plain_chr c = true) d →
  (2 ≤ length t)%nat → Forall (λ c, is_letter c = true) t →
  ∃ final,
    last t = Some final
    ∧ head (step email_shape (Cursor b (l ++ [ch "@"] ++ d ++ [ch "."] ++ t)))
      = Some (Cursor (Some final) []).
Proof.
  intros Hl0 Hl Hd0 Hd Ht0 Ht.
  assert (Hfinal : ∃ final, last t = Some final).
  { destruct (last t) eqn:E; [eauto|]. apply last_None in E. subst. simpl in Ht0. lia. }
  destruct Hfinal as [final Hfinal]. exists final. split; [done|].
  change email_shape with
    (Seq (Rep true 1 local_chr)
       (Seq (Seq (Cls (N.eqb (ch "@"))) Eps)
          (Seq (Rep true 1 domain_chr)
             (Seq (Seq (Cls (N.eqb (ch "."))) Eps) (Rep true 2 tld_chr))))).
  change (l ++ [ch "@"] ++ d ++ [ch "."] ++ t) with (l ++ ch "@" :: d ++ ch "." :: t).
  assert (Hrun1 : run local_chr (l ++ ch "@" :: d ++ ch "." :: t) = length l).
  { apply run_app_stop; [|done].
    eapply Forall_impl; [exact Hl|]. apply plain_chr_local. }
  edestruct (step_Rep_greedy_first 1 local_chr) as [l1 ->].
  { cbn [rest]. rewrite Hrun1. destruct l; [done|simpl; lia]. }
  cbn [rest]. rewrite Hrun1, advance_app. rewrite step_lit1.
  assert (Hrun2 : run domain_chr (d ++ ch "." :: t) = (length d + S (length t))%nat).
  { rewrite run_all.
    - rewrite length_app. simpl. lia.
    - apply Forall_app. split.
      + eapply Forall_impl; [exact Hd|]. apply plain_chr_domain.
      + constructor; [done|]. eapply Forall_impl; [exact Ht|]. apply is_letter_domain. }
  rewrite step_Seq, step_Rep. cbn [rest]. rewrite Hrun2.
  rewrite counts_greedy_split by (destruct d; [done|simpl; lia]).
  rewrite map_app, flat_map_skip.
  - cbn [map flat_map]. rewrite advance_app, step_lit1, step_Rep.
    cbn [rest].
    rewrite run_all by (eapply Forall_impl; [exact Ht|]; apply is_letter_tld).
    destruct (counts_greedy_head 2 (length t) Ht0) as [l3 ->].
    cbn [map]. rewrite <- (app_nil_r t) at 2. rewrite advance_app, Hfinal.
    simpl. reflexivity.
  - intros c Hc. apply in_map_iff in Hc as (k & <- & Hk).
    apply in_rev, in_seq in Hk.
    apply step_lit1_fails. intros x s Hrest. rewrite rest_advance in Hrest.
    cbn [rest] in Hrest.
    replace k with (length d + S (k - S (length d)))%nat in Hrest by lia.
    rewrite drop_app_add in Hrest. cbn [drop] in Hrest.
    apply is_letter_not_dot.
    assert (Hx : x ∈ t).
    { eapply (subseteq_drop (k - S (length d)) t). rewrite Hrest. by left. }
    rewrite Forall_forall in Ht. by apply Ht.
Qed.

Lemma scan_skips (m : cursor → option (str * nat)) prev s :
  (∀ p, m (Cursor p []) = None) → scan m (length s) prev s = [].
Proof.
  intros Hm. revert prev. induction s as [|c s IH]; intros prev; simpl.
  - by rewrite Hm.
  - apply IH.
Qed.

(** A plain address that is the whole text is found as it is: the
    extractor returns the address, and nothing else. *)
Theorem plain_address_alone_is_extracted `{Unicode} (address : str)
    (Hword : ∀ c, plain_chr c = true → chr_isword c = true)
    (Hplain : plain_address address) :
  extract_emails_from_text address = {[ address ]}.
Proof.
  destruct Hplain as (l & d & t & -> & Hl0 & Hl & Hd0 & Hd & Ht0 & Ht).
  set (text := l ++ [ch "@"] ++ d ++ [ch "."] ++ t).
  destruct (email_shape_on_plain None l d t Hl0 Hl Hd0 Hd Ht0 Ht)
    as (final & Hfinal & Hhead).
  fold text in Hhead.
  destruct (step email_shape (Cursor None text)) as [|e others] eqn:Hstep; [done|].
  injection Hhead as ->.
  assert (Hfirst : ∃ x s, text = x :: s ∧ chr_isword x = true).
  { destruct l as [|x l']; [done|]. exists x, (l' ++ [ch "@"] ++ d ++ [ch "."] ++ t).
    split; [done|]. apply Hword. by inversion Hl. }
  destruct Hfirst as (x & s & Htext & Hx).
  assert (Hfinalw : chr_isword final = true).
  { apply Hword, is_letter_plain. rewrite Forall_forall in Ht. apply Ht.
    apply last_Some in Hfinal as [t' ->]. apply elem_of_app. right. by left. }
  assert (Hwhole : whole email_pattern (Cursor None text) = Some (text, length text)).
  { unfold whole.
    change email_pattern with (Seq WordB (Seq email_shape WordB)).
    rewrite step_Seq.
    assert (step WordB (Cursor None text) = [Cursor None text]) as ->.
    { simpl. unfold at_wordb. simpl. rewrite Htext. simpl. by rewrite Hx. }
    cbn [flat_map]. rewrite app_nil_r, step_Seq, Hstep. cbn [flat_map].
    assert (step WordB (Cursor (Some final) []) = [Cursor (Some final) []]) as ->.
    { simpl. unfold at_wordb. simpl. by rewrite Hfinalw. }
    simpl. unfold matched, consumed. simpl.
    rewrite Nat.sub_0_r. by rewrite firstn_all. }
  unfold extract_emails_from_text, findall.
  assert (Hscan : scan (whole email_pattern) O None text = [text]).
  { rewrite Htext at 1. cbn [scan]. rewrite <- Htext, Hwhole. f_equal.
    rewrite Htext. cbn [length pred]. apply scan_skips.
    intros p. by apply email_pattern_needs_at. }
  rewrite Hscan. simpl. apply (right_id_L ∅ (∪)).
Qed.

Lemma plain_address_alone_is_extracted_witness :
  @extract_emails_from_text ascii_unicode (py "john@example.com")
  = {[ py "john@example.com" ]}.
Proof.
  apply (@plain_address_alone_is_extracted ascii_unicode (py "john@example.com")).
  - intros c. simpl. unfold plain_chr, Ascii7.isword, upper_AZ, lower_az, digit_09.
    destruct (between (ch "A") (ch "Z") c), (between (ch "a") (ch "z") c),
      (between (ch "0") (ch "9") c); simpl; done.
  - exists (py "john"), (py "example"), (py "com").
    repeat split; try done; try (simpl; lia); by repeat constructor.
Defined.

(** ** The fall-back of the delimiter detection *)

Lemma count_delimiters_spec content :
  match count_delimiters content with
  | Some d =>
      d ∈ delimiters ∧ (0 < count_chr d content)%nat
      ∧ (∀ d', d' ∈ delimiters → (count_chr d' content ≤ count_chr d content)%nat)
      ∧ (∀ i j d', delimiters !! i = Some d' → delimiters !! j = Some d →
                   (i < j)%nat → (count_chr d' content < count_chr d content)%nat)
  | None => ∀ d', d' ∈ delimiters → count_chr d' content = O
  end.
Proof.
  unfold count_delimiters, first_max, delimiters. cbn [map foldl snd].
  remember (count_chr (ch ",") content) as a.
  remember (count_chr (ch ";") content) as b.
  remember (count_chr TAB content) as c.
  remember (count_chr (ch "|") content) as e.
  assert (Hall : ∀ (P : char → Prop),
            P (ch ",") → P (ch ";") → P TAB → P (ch "|") →
            ∀ d', d' ∈ [ch ","; ch ";"; TAB; ch "|"] → P d').
  { intros P H1 H2 H3 H4 d' Hd'.
    repeat (apply elem_of_cons in Hd' as [->|Hd']); try done.
    by apply elem_of_nil in Hd'. }
  assert (Hidx : ∀ (i : nat) (d' : char),
            [ch ","; ch ";"; TAB; ch "|"] !! i = Some d' →
            (i = 0%nat ∧ d' = ch ",") ∨ (i = 1%nat ∧ d' = ch ";")
            ∨ (i = 2%nat ∧ d' = TAB) ∨ (i = 3%nat ∧ d' = ch "|")).
  { intros i d' Hi. destruct i as [|[|[|[|i]]]]; simpl in Hi; simplify_eq; auto 10. }
  repeat match goal with
         | |- context [(?x <? ?y)%nat] => destruct (Nat.ltb_spec x y); cbn [snd fst]
         end;
    try (apply Hall; subst; lia);
    (split; [set_solver|]; split; [lia|]; split;
     [apply Hall; subst; lia|];
     intros i j d' Hi Hj Hij;
     apply Hidx in Hi as [[-> ->]|[[-> ->]|[[-> ->]|[-> ->]]]];
     apply Hidx in Hj as [[-> Hj]|[[-> Hj]|[[-> Hj]|[-> Hj]]]];
     try lia; try discriminate Hj; subst; lia).
Qed.

(** When sniffing the sample fails, the file is read with the most
    frequent of comma, semicolon, tab and bar, the first of them in
    this order among equals; when none occurs the file is plain
    text. *)
Theorem fallback_is_the_most_frequent_delimiter `{Unicode} `{CsvModule} (content : str)
    (Hsample : nonempty (strip (take 1024 content)) = true)
    (Hsniff : sniff_delimiter (take 1024 content) = None) :
  match detect_delimiter content with
  | Some d =>
      d ∈ delimiters ∧ (0 < count_chr d content)%nat
      ∧ (∀ d', d' ∈ delimiters → (count_chr d' content ≤ count_chr d content)%nat)
      ∧ (∀ i j d', delimiters !! i = Some d' → delimiters !! j = Some d →
                   (i < j)%nat → (count_chr d' content < count_chr d content)%nat)
  | None => ∀ d', d' ∈ delimiters → count_chr d' content = O
  end.
Proof.
  unfold detect_delimiter. rewrite Hsample, Hsniff. apply count_delimiters_spec.
Qed.

Lemma fallback_is_the_most_frequent_delimiter_witness :
  @detect_delimiter ascii_unicode (plain_csv None) comma_and_semicolons = Some (ch ";")
  ∧ (0 < count_chr (ch ";") comma_and_semicolons)%nat
  ∧ Forall (λ d', (count_chr d' comma_and_semicolons
                   ≤ count_chr (ch ";") comma_and_semicolons)%nat) delimiters
  ∧ (count_chr (ch ",") comma_and_semicolons
     < count_chr (ch ";") comma_and_semicolons)%nat.
Proof.
  assert (Hsample : nonempty (@strip ascii_unicode (take 1024 comma_and_semicolons)) = true)
    by (vm_compute; reflexivity).
  pose proof (@fallback_is_the_most_frequent_delimiter ascii_unicode (plain_csv None)
                comma_and_semicolons Hsample eq_refl) as Hfallback.
  assert (Hd : @detect_delimiter ascii_unicode (plain_csv None) comma_and_semicolons
               = Some (ch ";"))
    by (vm_compute; reflexivity).
  rewrite Hd in Hfallback. destruct Hfallback as (_ & Hpos & Hmost & Hfirst).
  split; [exact Hd|]. split; [exact Hpos|]. split; [by apply Forall_forall|].
  apply (Hfirst 0%nat 1%nat (ch ",")); [reflexivity|reflexivity|lia].
Defined.

(** ** The header row is a row that names a column *)

Lemma find_index_Some {A} (p : A → bool) l i :
  find_index p l = Some i → ∃ x, l !! i = Some x ∧ p x = true.
Proof.
  revert i. induction l as [|x l IH]; intros i; simpl; [done|].
  destruct (p x) eqn:Hx.
  - intros [= <-]. eauto.
  - destruct (find_index p l) as [j|]; simpl; [|done].
    intros [= <-]. by apply IH.
Qed.

(** The header row the ingester keeps is one of the first five rows of
    the file, and a row with a cell that names a first-name, a last-name
    or an e-mail column; the data start behind it. *)
Theorem header_row_names_a_column `{Unicode} (rows : list (list str)) (h : nat)
    (Hheader : header_row (detect_header rows) = Some h) :
  (h < 5)%nat
  ∧ (∃ row, rows !! h = Some row ∧ fires row = true)
  ∧ start_row (detect_header rows) = S h
  ∧ (start_row (detect_header rows) ≤ length rows)%nat.
Proof.
  assert (Hrow : ∃ row, take 5 rows !! h = Some row ∧ fires row = true).
  { rewrite detect_header_keeps in Hheader.
    unfold first_name_row, first_signal_row in Hheader.
    destruct (find_index names_first (take 5 rows)) as [i|] eqn:Hi.
    - injection Hheader as ->. apply find_index_Some in Hi as (row & Hrow & Hp).
      exists row. split; [done|]. by apply names_first_fires.
    - by apply find_index_Some in Hheader. }
  destruct Hrow as (row & Hrow & Hfires).
  apply lookup_take_Some in Hrow as [Hrow Hlt].
  split; [done|]. split; [eauto|].
  unfold start_row. rewrite Hheader. split; [done|].
  apply lookup_lt_Some in Hrow. lia.
Qed.

Lemma header_row_names_a_column_witness :
  (2 < 5)%nat
  ∧ (∃ row, late_first_name_rows !! 2%nat = Some row ∧ @fires ascii_unicode row = true)
  ∧ start_row (@detect_header ascii_unicode late_first_name_rows) = 3%nat
  ∧ (start_row (@detect_header ascii_unicode late_first_name_rows)
     ≤ length late_first_name_rows)%nat.
Proof.
  apply (@header_row_names_a_column ascii_unicode late_first_name_rows 2).
  reflexivity.
Defined.

(** ** The partitioner composes *)

Lemma filter_suspicious_emails_filters `{Unicode} records :
  filter_suspicious_emails records
  = (filter (λ r, is_suspicious_email (email r) = false) records,
     filter (λ r, is_suspicious_email (email r) = true) records).
Proof. unfold filter_suspicious_emails. by rewrite filter_suspicious_emails_acc. Qed.

Lemma filter_all `{Unicode} (b : bool) records :
  Forall (λ r, is_suspicious_email (email r) = b) records →
  filter (λ r, is_suspicious_email (email r) = b) records = records
  ∧ filter (λ r, is_suspicious_email (email r) = negb b) records = [].
Proof.
  induction 1 as [|r records Hr Hl [IH1 IH2]]; [done|].
  rewrite filter_cons_True by done.
  rewrite filter_cons_False by (rewrite Hr; by destruct b).
  by rewrite IH1, IH2.
Qed.

(** Partitioning goes list by list, and partitioning a part again
    changes nothing: the partition of two lists one after the other is
    made of the partitions of the two; the valid list has no suspicious
    part and the suspicious list no valid part. *)
Theorem partition_composes `{Unicode} (records more : list EmailRecord) :
  filter_suspicious_emails (records ++ more)
  = ((filter_suspicious_emails records).1 ++ (filter_suspicious_emails more).1,
     (filter_suspicious_emails records).2 ++ (filter_suspicious_emails more).2)
  ∧ filter_suspicious_emails (filter_suspicious_emails records).1
    = ((filter_suspicious_emails records).1, [])
  ∧ filter_suspicious_emails (filter_suspicious_emails records).2
    = ([], (filter_suspicious_emails records).2).
Proof.
  rewrite !filter_suspicious_emails_filters. cbn [fst snd].
  split; [by rewrite !filter_app|].
  split.
  - destruct (filter_all false
                (filter (λ r, is_suspicious_email (email r) = false) records))
      as [H1 H2].
    { apply Forall_forall. intros r Hr. by apply list_elem_of_filter in Hr as [? _]. }
    simpl in H2. by rewrite H1, H2.
  - destruct (filter_all true
                (filter (λ r, is_suspicious_email (email r) = true) records))
      as [H1 H2].
    { apply Forall_forall. intros r Hr. by apply list_elem_of_filter in Hr as [? _]. }
    simpl in H2. by rewrite H1, H2.
Qed.

(** ** The names of a single card *)

Lemma named_upsert (f l e : list N) (m : gmap (list N) EmailRecord) :
  (∀ k r, m !! k = Some r → first_name r = f ∧ last_name r = l) →
  ∀ k r, upsert f l e m !! k = Some r → first_name r = f ∧ last_name r = l.
Proof.
  intros Hm k r. unfold upsert. destruct (m !! e) as [existing|] eqn:He.
  - rewrite lookup_insert. case_decide; simplify_eq; [|apply Hm].
    intros [= <-]. destruct (Hm _ _ He) as [Hf Hl].
    rewrite merge_names_first, merge_names_last, Hf, Hl.
    split; [by destruct (nonempty f)|by destruct (nonempty l)].
  - rewrite lookup_insert. case_decide; simplify_eq; [|apply Hm].
    by intros [= <-].
Qed.

Lemma named_upsert_all (f l : list N) (emails : list (list N))
    (m : gmap (list N) EmailRecord) :
  (∀ k r, m !! k = Some r → first_name r = f ∧ last_name r = l) →
  ∀ k r, upsert_all f l emails m !! k = Some r → first_name r = f ∧ last_name r = l.
Proof.
  unfold upsert_all. revert m.
  induction emails as [|e emails IH]; intros m Hm; simpl; [done|].
  apply IH. by apply named_upsert.
Qed.

(** A file of one card yields one record for each valid e-mail of the
    card, each with the first and the last name of the card. *)
Theorem single_card_records_share_its_names `{Unicode} (content vcard : str)
    (Hcard : vcards_of content = [vcard]) :
  let '(first_name', last_name', cleaned_emails) := parse_vcard vcard in
  (∀ e, e ∈ email <$> parse_vcf_file content ↔ e ∈ cleaned_emails)
  ∧ Forall (λ r, first_name r = first_name' ∧ last_name r = last_name')
           (parse_vcf_file content).
Proof.
  unfold parse_vcf_file.
  assert (Hstore : vcf_store content
                   = let '(f, l, cleaned) := parse_vcard vcard in
                     upsert_all f l cleaned ∅).
  { unfold vcf_store. rewrite Hcard. simpl.
    by destruct (parse_vcard vcard) as [[f l] [|e es]]. }
  destruct (parse_vcard vcard) as [[f l] cleaned]. split.
  - intros e. rewrite sorted_values_emails by apply keyed_vcf_store.
    rewrite Hstore, upsert_all_dom, dom_empty_L.
    split; [|auto]. intros [Hin|?]; [|done]. by apply elem_of_empty in Hin.
  - apply Forall_forall. intros r Hr.
    apply sorted_values_records in Hr as [k Hk]. rewrite Hstore in Hk.
    apply (named_upsert_all f l cleaned ∅ ltac:(intros ? ?; by rewrite lookup_empty) k r Hk).
Qed.

Lemma single_card_records_share_its_names_witness :
  Forall (λ r, first_name r = py "John" ∧ last_name r = py "Doe")
         (@parse_vcf_file ascii_unicode john_doe_vcf).
Proof.
  assert (Hcard : @vcards_of ascii_unicode john_doe_vcf
                  = [[LF] ++ py "FN:John Doe" ++ [LF]
                     ++ py "EMAIL:john@example.com" ++ [LF]])
    by (vm_compute; reflexivity).
  pose proof (@single_card_records_share_its_names ascii_unicode _ _ Hcard) as Hthm.
  assert (Hparse : @parse_vcard ascii_unicode
                     ([LF] ++ py "FN:John Doe" ++ [LF]
                      ++ py "EMAIL:john@example.com" ++ [LF])
                   = (py "John", py "Doe", [py "john@example.com"]))
    by (vm_compute; reflexivity).
  rewrite Hparse in Hthm. exact (proj2 Hthm).
Defined.

(** ** Long random local parts *)

Lemma anchored_class_accepts `{Unicode} lo p s :
  p LF = false →
  (∃ w tail, Forall (λ c, p c = true) w ∧ (lo ≤ length w)%nat
             ∧ tail ∈ [[]; [LF]] ∧ s = w ++ tail) →
  re_match (seqs [Bol false; Rep true lo p; Eol false]) s = true.
Proof.
  intros Hlf (w & tail & Hw & Hlen & Htail & ->). unfold re_match.
  change (seqs [Bol false; Rep true lo p; Eol false])
    with (Seq (Bol false) (Seq (Rep true lo p) (Eol false))).
  rewrite step_Bol_start.
  assert (Hrun : run p (w ++ tail) = length w).
  { repeat (apply elem_of_cons in Htail as [->|Htail]).
    - rewrite app_nil_r. by apply run_all.
    - by apply run_app_stop.
    - by apply elem_of_nil in Htail. }
  edestruct (step_Rep_greedy_first lo p (Eol false)) as [l ->].
  { cbn [rest]. by rewrite Hrun. }
  cbn [rest]. rewrite Hrun, advance_app.
  repeat (apply elem_of_cons in Htail as [->|Htail]);
    [reflexivity|reflexivity|by apply elem_of_nil in Htail].
Qed.

Lemma anchored_class_shape `{Unicode} lo p s :
  re_match (seqs [Bol false; Rep true lo p; Eol false]) s = true →
  of_class p s.
Proof.
  intros Hm. apply anchored_class_match in Hm as (w & Hw & [->| ->]).
  - exists w, []. split; [done|]. split; [by left|]. by rewrite app_nil_r.
  - exists w, [LF]. split; [done|]. split; [right; by left|done].
Qed.

(** Pattern 1 flags exactly the local parts of more than 40 characters,
    all of them lower-case letters and digits (a line feed may follow),
    with fewer vowels than 15% of the length; the [{35,}] of its
    pattern adds nothing to the length test.  An address with such a
    local part is suspicious. *)
Theorem long_random_local_parts_are_suspicious `{Unicode} (email local_part domain : str)
    (Hsplit : split_once (ch "@") email = Some (local_part, domain)) :
  (rule1 local_part = true
   ↔ (40 < length local_part)%nat ∧ of_class lower_alnum local_part
     ∧ (20 * vowel_count local_part < 3 * length local_part)%nat)
  ∧ (rule1 local_part = true → is_suspicious_email email = true).
Proof.
  split.
  - unfold rule1, few_vowels. rewrite !andb_true_iff, Nat.ltb_lt, Nat.ltb_lt.
    split.
    + intros [[Hlen Hm] Hv]. split; [done|]. split; [|done].
      by apply anchored_class_shape in Hm.
    + intros (Hlen & (w & tail & Hw & Htail & ->) & Hv).
      split; [|done]. split; [done|].
      apply anchored_class_accepts; [done|]. exists w, tail.
      split; [done|]. split; [|done].
      rewrite length_app in Hlen.
      repeat (apply elem_of_cons in Htail as [->|Htail]); simpl in Hlen; try lia.
      by apply elem_of_nil in Htail.
  - intros H1. unfold is_suspicious_email, local_and_domain. rewrite Hsplit. simpl.
    by rewrite H1.
Qed.

Lemma long_random_local_parts_are_suspicious_witness :
  @is_suspicious_email ascii_unicode
    (py "a1b2c3d4e5f6g7h8i9j0k1l2m3n4o5p6q7r8s9t0u1@test.com") = true.
Proof.
  apply (@long_random_local_parts_are_suspicious ascii_unicode
           (py "a1b2c3d4e5f6g7h8i9j0k1l2m3n4o5p6q7r8s9t0u1@test.com")
           (py "a1b2c3d4e5f6g7h8i9j0k1l2m3n4o5p6q7r8s9t0u1") (py "test.com") eq_refl).
  reflexivity.
Defined.

(** ** Names are trimmed *)

Lemma lstrip_by_head p s c : head (lstrip_by p s) = Some c → p c = false.
Proof.
  induction s as [|x s IH]; simpl; [done|].
  destruct (p x) eqn:Hx; [done|]. by intros [= <-].
Qed.

Lemma suffix_last {A} (l1 l2 : list A) c :
  l1 `suffix_of` l2 → last l1 = Some c → last l2 = Some c.
Proof.
  intros [k ->] Hl. apply last_Some in Hl as [l' ->].
  rewrite app_assoc. apply last_snoc.
Qed.

Lemma last_rev {A} (l : list A) : last (rev l) = head l.
Proof. destruct l as [|x l]; [done|]. simpl. apply last_snoc. Qed.

Lemma head_rev {A} (l : list A) : head (rev l) = last l.
Proof. rewrite <- (rev_involutive l) at 2. by rewrite last_rev. Qed.

Lemma strip_trimmed `{Unicode} s : trimmed (strip s).
Proof.
  unfold trimmed, strip, rstrip_by.
  set (u := lstrip_by chr_isspace s).
  set (v := lstrip_by chr_isspace (rev u)).
  split; intros c Hc.
  - rewrite head_rev in Hc.
    apply (suffix_last _ (rev u)) in Hc; [|apply lstrip_by_suffix].
    rewrite last_rev in Hc. by apply lstrip_by_head in Hc.
  - rewrite last_rev in Hc. by apply lstrip_by_head in Hc.
Qed.

Lemma trimmed_nil `{Unicode} : trimmed [].
Proof. by split. Qed.

Lemma name_at_trimmed `{Unicode} col row : trimmed (name_at col row).
Proof.
  unfold name_at. destruct col as [j|]; [|apply trimmed_nil].
  destruct (row !! j); [apply strip_trimmed|apply trimmed_nil].
Qed.

Lemma trimmed_upsert `{Unicode} (f l e : list N) (m : gmap (list N) EmailRecord) :
  trimmed f → trimmed l →
  (∀ k r, m !! k = Some r → trimmed (first_name r) ∧ trimmed (last_name r)) →
  ∀ k r, upsert f l e m !! k = Some r → trimmed (first_name r) ∧ trimmed (last_name r).
Proof.
  intros Hf Hl Hm k r. unfold upsert. destruct (m !! e) as [existing|] eqn:He.
  - rewrite lookup_insert. case_decide; simplify_eq; [|apply Hm].
    intros [= <-]. destruct (Hm _ _ He) as [Hef Hel].
    rewrite merge_names_first, merge_names_last.
    split; [by destruct (nonempty (first_name existing))
           |by destruct (nonempty (last_name existing))].
  - rewrite lookup_insert. case_decide; simplify_eq; [|apply Hm].
    by intros [= <-].
Qed.

Lemma trimmed_upsert_all `{Unicode} (f l : list N) (emails : list (list N))
    (m : gmap (list N) EmailRecord) :
  trimmed f → trimmed l →
  (∀ k r, m !! k = Some r → trimmed (first_name r) ∧ trimmed (last_name r)) →
  ∀ k r, upsert_all f l emails m !! k = Some r →
         trimmed (first_name r) ∧ trimmed (last_name r).
Proof.
  intros Hf Hl. unfold upsert_all. revert m.
  induction emails as [|e emails IH]; intros m Hm; simpl; [done|].
  apply IH. by apply trimmed_upsert.
Qed.

Lemma csv_store_trimmed `{Unicode} rows k r :
  csv_store rows !! k = Some r → trimmed (first_name r) ∧ trimmed (last_name r).
Proof.
  unfold csv_store. simpl.
  generalize (drop (start_row (detect_header rows)) rows). intros data.
  assert (Hgen : ∀ m : gmap (list N) EmailRecord,
            (∀ k r, m !! k = Some r → trimmed (first_name r) ∧ trimmed (last_name r)) →
            ∀ k r, foldl (process_row (detect_header rows)) m data !! k = Some r →
                   trimmed (first_name r) ∧ trimmed (last_name r)).
  { induction data as [|row data IH]; intros m Hm; simpl; [done|].
    apply IH. unfold process_row.
    apply trimmed_upsert_all; [apply name_at_trimmed..|done]. }
  apply Hgen. intros k' r'. by rewrite lookup_empty.
Qed.

(** The names of the records the CSV ingester returns neither begin nor
    end with white space. *)
Theorem csv_names_are_trimmed `{Unicode} `{CsvModule} (content : str)
    (records : list EmailRecord)
    (Hcsv : find_emails_in_csv content = Some records) :
  Forall (λ r, trimmed (first_name r) ∧ trimmed (last_name r)) records.
Proof.
  apply Forall_forall. intros r Hr.
  unfold find_emails_in_csv in Hcsv.
  destruct (detect_delimiter content) as [d|].
  - destruct (csv_rows d content) as [[|row rows]|]; simplify_eq.
    + by apply elem_of_nil in Hr.
    + apply sorted_values_records in Hr as [k Hk]. by eapply csv_store_trimmed.
  - simplify_eq. apply sorted_values_records in Hr as [k Hk].
    destruct (text_store_spec content) as [Hn _].
    destruct (Hn _ _ Hk) as [-> ->]. split; apply trimmed_nil.
Qed.

Lemma csv_names_are_trimmed_witness :
  Forall (λ r, @trimmed ascii_unicode (first_name r) ∧ @trimmed ascii_unicode (last_name r))
         [mkEmailRecord (py "x") [] (py "y@z.com")].
Proof.
  apply (@csv_names_are_trimmed ascii_unicode (plain_csv (Some (ch ",")))
           late_first_name_csv).
  vm_compute. reflexivity.
Defined.
